(** * inspect_ai.util._subprocess: a shallow embedding and its properties

    The module runs one external command to completion: it takes a slot of
    the "subprocesses" concurrency gate, spawns the child, feeds its standard
    input, drains stdout and stderr in chunks of 8192 bytes under an optional
    byte limit, waits for the exit status, and races all of that against an
    optional deadline.

    The Python code is asynchronous and talks to the operating system.  The
    embedding makes both explicit:

    - the operating system and the child are a record of answers ([Child]):
      what arrives on each pipe, the status the child exits with, how it
      reacts to signals, in which order the two readers are resumed and how
      many suspension points the pipeline passes before the deadline;
    - a coroutine is a function from a state (the process handle, the log of
      calls made so far, the armed deadline) to a result and a new state
      ([Task]); a result is a value, a raised exception (a cancellation is
      one), or a suspension that never ends.

    Calls on the process handle follow the documented behaviour of asyncio;
    the failures modelled are the ones the source itself names or handles
    (a child that cannot be started, the deadline, an error while
    terminating) together with indexing an empty argument vector and the
    strict decoding of captured bytes. *)

From Stdlib Require Import ZArith Lia.
From Stdlib Require Import Strings.Byte.
From stdpp Require Import gmap strings list fin_maps.

Local Open Scope Z_scope.

(** ** Data model *)

(** [T = TypeVar("T", str, bytes)]: a result carries text or raw bytes. *)
Inductive Payload : Type :=
| Text (s : string)
| Binary (b : list byte).

(** [ExecResult]. *)
Record ExecResult : Type := {
  success : bool;
  returncode : Z;
  stdout : Payload;
  stderr : Payload
}.

(** [args: str | list[str]]. *)
Inductive Args : Type :=
| Shell (cmd : string)
| Argv (argv : list string).

(** [input: str | bytes | memoryview | None]; a memoryview is its bytes. *)
Inductive Input : Type :=
| InStr (s : string)
| InBytes (b : list byte).

(** The parameters of one call of [subprocess]. *)
Record Invocation : Type := {
  args : Args;
  text : bool;
  input : option Input;
  cwd : option string;
  env : gmap string string;
  capture_output : bool;
  output_limit : option Z;
  timeout : option Z
}.

(** Python truthiness of an [int | None]. *)
Definition truthy (v : option Z) : bool :=
  match v with
  | Some z => negb (z =? 0)
  | None => false
  end.

(** ** The host

    What the interpreter and the machine provide: [os.environ],
    [os.cpu_count()], the test [sys.version_info >= (3, 11)], [str.encode],
    [bytes.decode] (strict: it fails on bytes that are not text) and
    [shlex.join]. *)
Record Host : Type := {
  os_environ : gmap string string;
  os_cpu_count : option N;
  python_ge_3_11 : bool;
  str_encode : string → list byte;
  bytes_decode : list byte → option string;
  shlex_join : list string → string
}.

(** ** The child and the scheduler *)

Inductive StreamId : Type := Stdout | Stderr.

Record Child : Type := {
  (** [create_subprocess_*] raises with this message instead of starting. *)
  cannot_start : option string;
  (** The data reaching the parent on each pipe, in arrival order. *)
  out_data : list (list byte);
  err_data : list (list byte);
  (** Status with which the child exits when left alone; [None] when it
      never exits on its own (its pipes then stay open). *)
  exit_status : option Z;
  (** Whether [drain()] on its standard input ever completes. *)
  drains_stdin : bool;
  (** Status [wait()] reports once [kill()] has reached a running child. *)
  kill_status : Z;
  (** Status with which it exits within the grace period after
      [terminate()]; [None] when it is still running after it. *)
  term_status : option Z;
  (** [terminate()] raises (the process is already gone, say). *)
  terminate_raises : bool;
  (** Which reader is resumed next whenever both can proceed. *)
  schedule : list StreamId;
  (** Number of suspension points the pipeline passes before a deadline of
      the given number of seconds expires. *)
  awaits_before_deadline : Z → nat
}.

(** ** The process handle *)

Record StdinPipe : Type := {
  written : list byte;
  closed : bool
}.

(** [asyncio.subprocess.Process]: [returncode] is [None] while the child
    runs; [stdout] and [stderr] are [None] unless they were piped, and
    otherwise hold what is still to be read. *)
Record Process : Type := {
  proc_returncode : option Z;
  proc_stdin : option StdinPipe;
  proc_stdout : option (list (list byte));
  proc_stderr : option (list (list byte))
}.

Definition get_stream (s : StreamId) (p : Process) : option (list (list byte)) :=
  match s with
  | Stdout => proc_stdout p
  | Stderr => proc_stderr p
  end.

Definition set_stream (s : StreamId) (v : list (list byte)) (p : Process) : Process :=
  match s with
  | Stdout => {| proc_returncode := proc_returncode p; proc_stdin := proc_stdin p;
                 proc_stdout := Some v; proc_stderr := proc_stderr p |}
  | Stderr => {| proc_returncode := proc_returncode p; proc_stdin := proc_stdin p;
                 proc_stdout := proc_stdout p; proc_stderr := Some v |}
  end.

Definition set_returncode (rc : option Z) (p : Process) : Process :=
  {| proc_returncode := rc; proc_stdin := proc_stdin p;
     proc_stdout := proc_stdout p; proc_stderr := proc_stderr p |}.

Definition set_stdin (i : option StdinPipe) (p : Process) : Process :=
  {| proc_returncode := proc_returncode p; proc_stdin := i;
     proc_stdout := proc_stdout p; proc_stderr := proc_stderr p |}.

(** ** Calls made on the operating system, in order *)

Inductive Stdio : Type := PIPE | Inherit.

Record SpawnOptions : Type := {
  opt_stdin : Stdio;
  opt_stdout : Stdio;
  opt_stderr : Stdio;
  opt_cwd : option string;
  opt_env : gmap string string
}.

Inductive ProcEvent : Type :=
| SpawnShell (cmd : string) (o : SpawnOptions)
| SpawnExec (program : string) (arguments : list string) (o : SpawnOptions)
| StdinWrite (data : list byte)
| StdinDrain
| StdinClose
| StdinWaitClosed
| Read (s : StreamId) (n : Z) (chunk : list byte)
| Kill
| Terminate
| Sleep (seconds : Z)
| Wait (rc : Z)
| LogWarning.

Inductive Event : Type :=
| GateEnter (name : string) (limit : Z)
| GateAcquire (name : string)
| GateRelease (name : string)
| TraceBegin (action message : string)
| TraceEnd
| OnChild (e : ProcEvent).

(** ** Coroutines *)

Inductive Exn : Type :=
| TimeoutError
| SpawnError (msg : string)
| IndexError
| UnicodeDecodeError
| ProcessLookupError
| CancelledError.

(** [CancelledError] derives from [BaseException], the others from
    [Exception]. *)
Definition is_Exception (e : Exn) : bool :=
  match e with
  | CancelledError => false
  | _ => true
  end.

Definition is_TimeoutError (e : Exn) : bool :=
  match e with
  | TimeoutError => true
  | _ => false
  end.

Inductive Res (A : Type) : Type :=
| Done (a : A)
| Raised (e : Exn)
| Blocked.
Arguments Done {A} a.
Arguments Raised {A} e.
Arguments Blocked {A}.

Record St : Type := {
  st_proc : Process;
  st_log : list ProcEvent;
  (** [Some k]: a deadline is armed and [k] more suspension points complete
      before it expires. *)
  st_deadline : option nat
}.

Definition Task (A : Type) : Type := St → Res A * St.

Definition ret {A} (a : A) : Task A := λ st, (Done a, st).

Definition raise {A} (e : Exn) : Task A := λ st, (Raised e, st).

Definition bind {A B} (m : Task A) (f : A → Task B) : Task B :=
  λ st,
    match m st with
    | (Done a, st') => f a st'
    | (Raised e, st') => (Raised e, st')
    | (Blocked, st') => (Blocked, st')
    end.

Declare Scope task_scope.
Delimit Scope task_scope with task.
Notation "'let*' x ':=' m 'in' k" := (bind m (λ x, k))
  (at level 10, x pattern, m at level 100, k at level 200) : task_scope.
Notation "m ';;;' k" := (bind m (λ _, k))
  (at level 100, k at level 200, right associativity) : task_scope.
Local Open Scope task_scope.

(** [try: body except <handles>: handler]. *)
Definition try_except {A} (body : Task A) (handles : Exn → bool)
    (handler : Exn → Task A) : Task A :=
  λ st,
    match body st with
    | (Raised e, st') => if handles e then handler e st' else (Raised e, st')
    | r => r
    end.

Definition get_proc : Task Process := λ st, (Done (st_proc st), st).

Definition set_proc (p : Process) : Task unit :=
  λ st, (Done (), {| st_proc := p; st_log := st_log st; st_deadline := st_deadline st |}).

Definition emit (e : ProcEvent) : Task unit :=
  λ st, (Done (), {| st_proc := st_proc st; st_log := st_log st ++ [e];
                     st_deadline := st_deadline st |}).

(** A suspension point.  [ready] tells whether what is awaited ever
    happens.  With a deadline armed the coroutine is cancelled when the
    deadline comes first; without one it waits, for ever if need be. *)
Definition await (ready : bool) : Task unit :=
  λ st,
    match st_deadline st with
    | None => if ready then (Done (), st) else (Blocked, st)
    | Some O => (Raised CancelledError, st)
    | Some (S k) =>
        if ready
        then (Done (), {| st_proc := st_proc st; st_log := st_log st;
                          st_deadline := Some k |})
        else (Raised CancelledError, st)
    end.

(** An [await] on something that never happens. *)
Definition never {A} : Task A :=
  λ st,
    match st_deadline st with
    | None => (Blocked, st)
    | Some _ => (Raised CancelledError, st)
    end.

(** ** The process handle's methods *)

(** A drained pipe reaches its end when the child is dead or exits on its
    own; it stays open otherwise. *)
Definition will_close (c : Child) (p : Process) : bool :=
  bool_decide (is_Some (proc_returncode p)) || bool_decide (is_Some (exit_status c)).

(** What [read(n)] finds in a pipe: at most [n] bytes of the oldest
    non-empty arrival, the rest of it staying first in line. *)
Fixpoint take_chunk (n : nat) (pipe : list (list byte))
    : option (list byte * list (list byte)) :=
  match pipe with
  | [] => None
  | [] :: pipe' => take_chunk n pipe'
  | seg :: pipe' =>
      Some (take n seg,
            match drop n seg with
            | [] => pipe'
            | seg' => seg' :: pipe'
            end)
  end.

(** [await stream.read(n)]: the empty chunk is the end of the stream. *)
Definition stream_read (c : Child) (s : StreamId) (n : Z) : Task (list byte) :=
  let* p := get_proc in
  match take_chunk (Z.to_nat n) (default [] (get_stream s p)) with
  | Some (chunk, rest) =>
      await true;;;
      set_proc (set_stream s rest p);;;
      emit (Read s n chunk);;;
      ret chunk
  | None =>
      await (will_close c p);;;
      emit (Read s n []);;;
      ret []
  end.

(** [proc.kill()]: a running child dies at once. *)
Definition proc_kill (c : Child) : Task unit :=
  emit Kill;;;
  let* p := get_proc in
  match proc_returncode p with
  | None => set_proc (set_returncode (Some (kill_status c)) p)
  | Some _ => ret ()
  end.

(** [proc.terminate()]: a running child that honours the request has
    exited by the end of the grace period. *)
Definition proc_terminate (c : Child) : Task unit :=
  emit Terminate;;;
  if terminate_raises c then raise ProcessLookupError
  else
    let* p := get_proc in
    match proc_returncode p with
    | None => set_proc (set_returncode (term_status c) p)
    | Some _ => ret ()
    end.

(** [await proc.wait()]. *)
Definition proc_wait (c : Child) : Task Z :=
  let* p := get_proc in
  match proc_returncode p with
  | Some rc => await true;;; emit (Wait rc);;; ret rc
  | None =>
      match exit_status c with
      | Some rc =>
          await true;;;
          set_proc (set_returncode (Some rc) p);;;
          emit (Wait rc);;;
          ret rc
      | None => never
      end
  end.

(** [await asyncio.sleep(seconds)]. *)
Definition asyncio_sleep (seconds : Z) : Task unit :=
  await true;;; emit (Sleep seconds).

Definition update_stdin (f : StdinPipe → StdinPipe) : Task unit :=
  let* p := get_proc in
  set_proc (set_stdin (f <$> proc_stdin p) p).

(** [proc.stdin.write(data)]. *)
Definition stdin_write (data : list byte) : Task unit :=
  update_stdin (λ i, {| written := written i ++ data; closed := closed i |});;;
  emit (StdinWrite data).

(** [await proc.stdin.drain()]. *)
Definition stdin_drain (c : Child) : Task unit :=
  await (drains_stdin c);;; emit StdinDrain.

(** [proc.stdin.close()]. *)
Definition stdin_close : Task unit :=
  update_stdin (λ i, {| written := written i; closed := true |});;;
  emit StdinClose.

(** [await proc.stdin.wait_closed()]. *)
Definition stdin_wait_closed : Task unit :=
  await true;;; emit StdinWaitClosed.

(** ** [subprocess] *)

(** [output_limit is not None and len(output) > output_limit]. *)
Definition exceeds (limit : option Z) (output : list byte) : bool :=
  match limit with
  | Some l => Z.of_nat (length output) >? l
  | None => false
  end.

(** One turn of the loop of [read_stream]; the boolean tells whether the
    loop was left. *)
Definition read_iter (c : Child) (i : Invocation) (s : StreamId)
    (output : list byte) : Task (list byte * bool) :=
  let* chunk := stream_read c s 8192 in
  match chunk with
  | [] => ret (output, true)
  | _ =>
      let output := output ++ chunk in
      if exceeds (output_limit i) output
      then proc_kill c;;; ret (output, true)
      else ret (output, false)
  end.

(** A [read_stream] coroutine between two turns. *)
Record Reader : Type := {
  rd_output : list byte;
  rd_done : bool
}.

(** [if stream is None: return bytes()], else [output = bytearray()]. *)
Definition read_stream_start (s : StreamId) (p : Process) : Reader :=
  match get_stream s p with
  | None => {| rd_output := []; rd_done := true |}
  | Some _ => {| rd_output := []; rd_done := false |}
  end.

(** A reader can take its next turn when its pipe has data or is at its
    end. *)
Definition can_proceed (c : Child) (p : Process) (out err : Reader)
    (s : StreamId) : bool :=
  let r := match s with Stdout => out | Stderr => err end in
  negb (rd_done r)
  && (bool_decide (is_Some (take_chunk (Z.to_nat 8192) (default [] (get_stream s p))))
      || will_close c p).

(** The scheduler resumes the reader the schedule names when that one can
    proceed, and otherwise any reader that can. *)
Definition pick (sched : list StreamId) (ok : StreamId → bool) : option StreamId :=
  List.find ok (take 1 sched ++ [Stdout; Stderr]).

Definition pipe_bytes (pipe : list (list byte)) : nat := length (concat pipe).

(** Every turn of a reader consumes a byte or ends the reader. *)
Definition gather_fuel (p : Process) : nat :=
  (pipe_bytes (default [] (proc_stdout p))
   + pipe_bytes (default [] (proc_stderr p)) + 2)%nat.

(** [asyncio.gather(read_stream(proc.stdout), read_stream(proc.stderr))]
    from the point where the two readers stand at [out] and [err]. *)
Fixpoint gather_from (c : Child) (i : Invocation) (fuel : nat)
    (sched : list StreamId) (out err : Reader) : Task (list byte * list byte) :=
  if rd_done out && rd_done err then ret (rd_output out, rd_output err)
  else
    match fuel with
    | O => never
    | S fuel' =>
        let* p := get_proc in
        match pick sched (can_proceed c p out err) with
        | None => never
        | Some Stdout =>
            let* (output, done) := read_iter c i Stdout (rd_output out) in
            gather_from c i fuel' (tail sched)
              {| rd_output := output; rd_done := done |} err
        | Some Stderr =>
            let* (output, done) := read_iter c i Stderr (rd_output err) in
            gather_from c i fuel' (tail sched)
              out {| rd_output := output; rd_done := done |}
        end
    end.

Definition gather_read_streams (c : Child) (i : Invocation)
    : Task (list byte * list byte) :=
  let* p := get_proc in
  gather_from c i (gather_fuel p) (schedule c)
    (read_stream_start Stdout p) (read_stream_start Stderr p).

(** [b.decode()]. *)
Definition decode (h : Host) (b : list byte) : Task string :=
  match bytes_decode h b with
  | Some s => ret s
  | None => raise UnicodeDecodeError
  end.

(** [input.encode() if isinstance(input, str) else input]. *)
Definition resolve_input (h : Host) (i : Invocation) : option (list byte) :=
  match input i with
  | Some (InStr s) => Some (str_encode h s)
  | Some (InBytes b) => Some b
  | None => None
  end.

Definition spawn_options (h : Host) (i : Invocation) : SpawnOptions :=
  {| opt_stdin := PIPE;
     opt_stdout := if capture_output i then PIPE else Inherit;
     opt_stderr := if capture_output i then PIPE else Inherit;
     opt_cwd := cwd i;
     (* {**os.environ, **env} *)
     opt_env := env i ∪ os_environ h |}.

(** The handle of a child started with these options. *)
Definition start_child (c : Child) (o : SpawnOptions) : Process :=
  {| proc_returncode := None;
     proc_stdin := match opt_stdin o with
                   | PIPE => Some {| written := []; closed := false |}
                   | Inherit => None
                   end;
     proc_stdout := match opt_stdout o with
                    | PIPE => Some (out_data c)
                    | Inherit => None
                    end;
     proc_stderr := match opt_stderr o with
                    | PIPE => Some (err_data c)
                    | Inherit => None
                    end |}.

Definition create_subprocess (c : Child) (call : SpawnOptions → ProcEvent)
    (o : SpawnOptions) : list ProcEvent * (Exn + Process) :=
  ([call o],
   match cannot_start c with
   | Some msg => inl (SpawnError msg)
   | None => inr (start_child c o)
   end).

(** [run_command] up to [yield proc]. *)
Definition run_command_spawn (h : Host) (c : Child) (i : Invocation)
    : list ProcEvent * (Exn + Process) :=
  match args i with
  | Shell cmd => create_subprocess c (SpawnShell cmd) (spawn_options h i)
  | Argv [] => ([], inl IndexError)
  | Argv (program :: arguments) =>
      create_subprocess c (SpawnExec program arguments) (spawn_options h i)
  end.

(** [run_command] after [yield proc], first part: write stdin if specified. *)
Definition write_stdin (h : Host) (c : Child) (i : Invocation) : Task unit :=
  let* proc := get_proc in
  match proc_stdin proc with
  | Some _ =>
      match resolve_input h i with
      | Some data => stdin_write data;;; stdin_drain c
      | None => ret ()
      end;;;
      stdin_close;;;
      stdin_wait_closed
  | None => ret ()
  end.

(** Second part: wait for it to execute and yield result. *)
Definition collect_result (h : Host) (c : Child) (i : Invocation) : Task ExecResult :=
  let* (out, err) := gather_read_streams c i in
  let* rc := proc_wait c in
  let ok := rc =? 0 in
  if text i then
    let* out := if capture_output i then decode h out else ret EmptyString in
    let* err := if capture_output i then decode h err else ret EmptyString in
    ret {| success := ok; returncode := rc; stdout := Text out; stderr := Text err |}
  else
    ret {| success := ok; returncode := rc;
           stdout := Binary (if capture_output i then out else []);
           stderr := Binary (if capture_output i then err else []) |}.

(** [run_command] from [yield proc] to the [yield] of the result. *)
Definition run_command_result (h : Host) (c : Child) (i : Invocation)
    : Task ExecResult :=
  write_stdin h c i;;;
  collect_result h c i.

(** [async with asyncio.timeout(delay)]: the body runs under a deadline; a
    body cancelled by it raises [TimeoutError]. *)
Definition asyncio_timeout {A} (c : Child) (delay : Z) (body : Task A) : Task A :=
  λ st,
    let armed := {| st_proc := st_proc st; st_log := st_log st;
                    st_deadline := Some (awaits_before_deadline c delay) |} in
    let '(r, st') := body armed in
    let disarmed := {| st_proc := st_proc st'; st_log := st_log st';
                       st_deadline := st_deadline st |} in
    match r with
    | Raised CancelledError => (Raised TimeoutError, disarmed)
    | _ => (r, disarmed)
    end.

(** [await asyncio.wait_for(body, timeout=delay)] does the same. *)
Definition asyncio_wait_for {A} (c : Child) (body : Task A) (delay : Z) : Task A :=
  asyncio_timeout c delay body.

(** The handler of the timeout: graceful termination, then force. *)
Definition terminate_timed_out (c : Child) : Task unit :=
  try_except
    (proc_terminate c;;;
     asyncio_sleep 2;;;
     let* proc := get_proc in
     match proc_returncode proc with
     | None => proc_kill c
     | Some _ => ret ()
     end)
    is_Exception
    (λ _, emit LogWarning).

(** [run_command_timeout] once the process handle is captured. *)
Definition await_result (h : Host) (c : Child) (i : Invocation) : Task ExecResult :=
  match timeout i with
  | Some delay =>
      if delay =? 0 then run_command_result h c i
      else
        try_except
          (if python_ge_3_11 h
           then asyncio_timeout c delay (run_command_result h c i)
           else asyncio_wait_for c (run_command_result h c i) delay)
          is_TimeoutError
          (λ _, terminate_timed_out c;;; raise TimeoutError)
  | None => run_command_result h c i
  end.

Record ChildRun : Type := {
  cr_result : Res ExecResult;
  cr_log : list ProcEvent;
  cr_proc : option Process
}.

Definition run_command_timeout (h : Host) (c : Child) (i : Invocation) : ChildRun :=
  match run_command_spawn h c i with
  | (log, inl e) => {| cr_result := Raised e; cr_log := log; cr_proc := None |}
  | (log, inr proc) =>
      let '(r, st) := await_result h c i
                        {| st_proc := proc; st_log := log; st_deadline := None |} in
      {| cr_result := r; cr_log := st_log st; cr_proc := Some (st_proc st) |}
  end.

(** ** The concurrency gate and the process-wide limit *)

(** [cpus if cpus else 1]. *)
Definition default_max_subprocesses (h : Host) : Z :=
  let cpus := os_cpu_count h in
  match cpus with
  | Some n => if (n =? 0)%N then 1 else Z.of_N n
  | None => 1
  end.

(** Process-wide state: the value set in [max_subprocesses_context_var]
    ([None] until it is set) and, per resource name, the number of slots of
    the gate that are held. *)
Record Globals : Type := {
  max_subprocesses_context_var : option Z;
  holders : gmap string nat
}.

(** [max_subprocesses_context_var.get()]; the default of the variable is
    [default_max_subprocesses()]. *)
Definition context_var_get (h : Host) (g : Globals) : Z :=
  default (default_max_subprocesses h) (max_subprocesses_context_var g).

Definition init_max_subprocesses (h : Host) (max_subprocesses : option Z)
    (g : Globals) : Globals :=
  let max_subprocesses :=
    if truthy max_subprocesses then default 0 max_subprocesses
    else default_max_subprocesses h in
  {| max_subprocesses_context_var := Some max_subprocesses;
     holders := holders g |}.

Definition held (g : Globals) (name : string) : nat :=
  default O (holders g !! name).

(** ** The entry point *)

Inductive Outcome : Type :=
| Returned (r : ExecResult)
| Raises (e : Exn)
| NeverReturns.

(** What a call of [subprocess] amounts to: how it ends, what it did, the
    process-wide state it leaves, and the handle of the child if one was
    started. *)
Record Run : Type := {
  outcome : Outcome;
  events : list Event;
  globals : Globals;
  child : option Process
}.

Definition outcome_of (r : Res ExecResult) : Outcome :=
  match r with
  | Done res => Returned res
  | Raised e => Raises e
  | Blocked => NeverReturns
  end.

(** [run_command_timeout()] seen from outside. *)
Definition run_of (g : Globals) (r : ChildRun) : Run :=
  {| outcome := outcome_of (cr_result r);
     events := OnChild <$> cr_log r;
     globals := g;
     child := cr_proc r |}.

(** Modelled from the spec: the gate behind [concurrency], of the module
    [_concurrency], which is absent.  A slot of [name] is granted when
    fewer than [limit] holders are active for [name]. *)
Definition gate_admits (g : Globals) (name : string) (limit : Z) : bool :=
  Z.of_nat (held g name) <? limit.

(** Modelled from the spec: the acquisition of a slot of the absent
    [_concurrency] module; it adds a holder of [name]. *)
Definition gate_acquire (name : string) (g : Globals) : Globals :=
  {| max_subprocesses_context_var := max_subprocesses_context_var g;
     holders := <[name := S (held g name)]> (holders g) |}.

(** Modelled from the spec: the release of a slot of the absent
    [_concurrency] module; it returns the slot. *)
Definition gate_release (name : string) (g : Globals) : Globals :=
  {| max_subprocesses_context_var := max_subprocesses_context_var g;
     holders := <[name := Nat.pred (held g name)]> (holders g) |}.

(** Modelled from the spec: the context manager [concurrency(name, limit)]
    of the absent [_concurrency] module.  Entering it blocks the caller
    until a slot is granted and cannot fail; the slot is held while the
    body runs and is released when the body ends, whether it returns or
    raises. *)
Definition concurrency (name : string) (limit : Z) (g : Globals)
    (body : Globals → Run) : Run :=
  if gate_admits g name limit then
    let r := body (gate_acquire name g) in
    match outcome r with
    | NeverReturns =>
        {| outcome := NeverReturns;
           events := GateEnter name limit :: GateAcquire name :: events r;
           globals := globals r;
           child := child r |}
    | _ =>
        {| outcome := outcome r;
           events := GateEnter name limit :: GateAcquire name
                     :: events r ++ [GateRelease name];
           globals := gate_release name (globals r);
           child := child r |}
    end
  else
    {| outcome := NeverReturns; events := [GateEnter name limit];
       globals := g; child := None |}.

(** Modelled from the spec: the context manager
    [trace_action(logger, action, message)] of [inspect_ai._util.trace],
    which is absent; tracing is instrumentation around the body and
    records where the action begins and where it ends. *)
Definition trace_action (action message : string) (body : Run) : Run :=
  {| outcome := outcome body;
     events := TraceBegin action message
               :: events body
               ++ match outcome body with
                  | NeverReturns => []
                  | _ => [TraceEnd]
                  end;
     globals := globals body;
     child := child body |}.

(** [args if isinstance(args, str) else shlex.join(args)]. *)
Definition trace_message (h : Host) (i : Invocation) : string :=
  match args i with
  | Shell cmd => cmd
  | Argv argv => shlex_join h argv
  end.

Definition subprocess (h : Host) (c : Child) (g : Globals) (i : Invocation) : Run :=
  concurrency "subprocesses" (context_var_get h g) g (λ g,
    trace_action "Subprocess" (trace_message h i)
      (run_of g (run_command_timeout h c i))).

(** ** Reading one stream on its own

    The loop of [read_stream] as a function of what the pipe delivers: the
    bytes it returns, and whether it left the loop by killing the child.
    The readers run by [gather_from] are shown below to return exactly
    this, however they are interleaved. *)
Fixpoint read_stream_loop (fuel : nat) (limit : option Z) (output : list byte)
    (pipe : list (list byte)) : list byte * bool :=
  match fuel with
  | O => (output, false)
  | S fuel' =>
      match take_chunk (Z.to_nat 8192) pipe with
      | None => (output, false)
      | Some (chunk, rest) =>
          let output := output ++ chunk in
          if exceeds limit output then (output, true)
          else read_stream_loop fuel' limit output rest
      end
  end.

Definition read_stream_alone (limit : option Z)
    (stream : option (list (list byte))) : list byte * bool :=
  match stream with
  | None => ([], false)
  | Some pipe => read_stream_loop (pipe_bytes pipe) limit [] pipe
  end.

(** ** Reading a log *)

Global Instance StreamId_eq_dec : EqDecision StreamId.
Proof. solve_decision. Defined.

(** The chunks returned by the reads of stream [s], in order. *)
Definition reads_of (s : StreamId) (log : list ProcEvent) : list (list byte) :=
  omap (λ e, match e with
             | Read s' _ chunk => if decide (s' = s) then Some chunk else None
             | _ => None
             end) log.

Definition is_Kill (e : ProcEvent) : bool :=
  match e with Kill => true | _ => false end.

Definition is_Read (e : ProcEvent) : bool :=
  match e with Read _ _ _ => true | _ => false end.



Definition spawn_options_of (e : ProcEvent) : option SpawnOptions :=
  match e with
  | SpawnShell _ o | SpawnExec _ _ o => Some o
  | _ => None
  end.

Definition is_gate_event (e : Event) : bool :=
  match e with
  | GateEnter _ _ | GateAcquire _ | GateRelease _ => true
  | _ => false
  end.

(** The calls made on the child during a run. *)
Definition child_log (r : Run) : list ProcEvent :=
  omap (λ e, match e with OnChild x => Some x | _ => None end) (events r).

(** The data the child sends to a stream. *)
Definition data_of (c : Child) (s : StreamId) : list (list byte) :=
  match s with
  | Stdout => out_data c
  | Stderr => err_data c
  end.

Definition payload_of (s : StreamId) (res : ExecResult) : Payload :=
  match s with
  | Stdout => stdout res
  | Stderr => stderr res
  end.

(** A payload of the result carries these bytes: as they are in binary
    mode, decoded in text mode. *)
Definition carries (h : Host) (i : Invocation) (p : Payload) (b : list byte) : Prop :=
  if text i then ∃ t, bytes_decode h b = Some t ∧ p = Text t
  else p = Binary b.

(** [""] or [bytes()]. *)
Definition empty_payload (i : Invocation) : Payload :=
  if text i then Text EmptyString else Binary [].

(** ** What a coroutine may do

    [behaves I P E m]: started on a process handle that satisfies [I], the
    coroutine [m] keeps [I]; every call it logs satisfies [P]; it leaves no
    deadline armed that was not armed before; and whatever it raises is a
    cancellation by an armed deadline or satisfies [E]. *)
Definition behaves {A} (I : Process → Prop) (P : ProcEvent → Prop)
    (E : Exn → Prop) (m : Task A) : Prop :=
  ∀ st r st', I (st_proc st) → m st = (r, st') →
    I (st_proc st')
    ∧ (∃ evs, st_log st' = st_log st ++ evs ∧ Forall P evs)
    ∧ (st_deadline st = None → st_deadline st' = None)
    ∧ (∀ e, r = Raised e → (e = CancelledError ∧ st_deadline st ≠ None) ∨ E e).

(** The handle of a child whose output is not captured. *)
Definition uncaptured (p : Process) : Prop :=
  proc_stdout p = None ∧ proc_stderr p = None.

(** The invocation with another timeout. *)
Definition set_timeout (t : option Z) (i : Invocation) : Invocation :=
  {| args := args i; text := text i; input := input i; cwd := cwd i;
     env := env i; capture_output := capture_output i;
     output_limit := output_limit i; timeout := t |}.

(** ** A concrete host and child

    Used to run the definitions on explicit inputs.  The decoder accepts
    the bytes below 128. *)
Definition ascii_decode (b : list byte) : option string :=
  if forallb (λ x, (Byte.to_N x <? 128)%N) b
  then Some (String.string_of_list_byte b)
  else None.

Definition example_host : Host :=
  {| os_environ := {[ "PATH" := "/bin"; "HOME" := "/root" ]};
     os_cpu_count := Some 4%N;
     python_ge_3_11 := true;
     str_encode := String.list_byte_of_string;
     bytes_decode := ascii_decode;
     shlex_join := String.concat " " |}.

(** Writes "hi!" to stdout in two pieces and "err" to stderr, then exits
    with status 3. *)
Definition example_child : Child :=
  {| cannot_start := None;
     out_data := [ ["h"; "i"]%byte; ["!"]%byte ];
     err_data := [ ["e"; "r"; "r"]%byte ];
     exit_status := Some 3;
     drains_stdin := true;
     kill_status := -9;
     term_status := None;
     terminate_raises := false;
     schedule := [Stderr; Stdout];
     awaits_before_deadline := λ _, 2%nat |}.

(** A child that never exits and writes nothing. *)
Definition sleeping_child : Child :=
  {| cannot_start := None;
     out_data := [];
     err_data := [];
     exit_status := None;
     drains_stdin := true;
     kill_status := -9;
     term_status := None;
     terminate_raises := false;
     schedule := [];
     awaits_before_deadline := λ _, 2%nat |}.

Definition example_globals : Globals :=
  {| max_subprocesses_context_var := None; holders := ∅ |}.

Definition example_call : Invocation :=
  {| args := Argv ["echo"; "hi"]; text := true; input := Some (InStr "abc");
     cwd := None; env := {[ "HOME" := "/tmp" ]}; capture_output := true;
     output_limit := None; timeout := None |}.

(** A call made on a child that exists already. *)
Definition post_spawn (e : ProcEvent) : Prop := spawn_options_of e = None.

(** What the pipeline can raise besides a cancellation. *)
Definition pipeline_raises (i : Invocation) (e : Exn) : Prop :=
  e = UnicodeDecodeError ∨ (e = TimeoutError ∧ truthy (timeout i) = true).

(** The calls the pipeline makes when no deadline interrupts it. *)
Definition pipeline_event (e : ProcEvent) : Prop :=
  match e with
  | StdinWrite _ | StdinDrain | StdinClose | StdinWaitClosed
  | Read _ _ _ | Kill | Wait _ => True
  | _ => False
  end.

(** The state with another deadline. *)
Definition with_deadline (d : option nat) (st : St) : St :=
  {| st_proc := st_proc st; st_log := st_log st; st_deadline := d |}.

(** The termination sequence on a child whose handle is [p] when the
    deadline expires: the graceful request, the grace period of two
    seconds, and the kill when the child is still running after it; or,
    when the request raises, the request and the warning. *)
Definition termination_events (c : Child) (p : Process) : list ProcEvent :=
  if terminate_raises c then [Terminate; LogWarning]
  else
    [Terminate; Sleep 2]
    ++ match proc_returncode p, term_status c with
       | None, None => [Kill]
       | _, _ => []
       end.



(** The deadline under which the pipeline runs: [if timeout:]. *)
Definition armed_deadline (c : Child) (i : Invocation) : option nat :=
  match timeout i with
  | Some delay => if delay =? 0 then None else Some (awaits_before_deadline c delay)
  | None => None
  end.



(** The calls made on the standard input of the child for a payload, and
    the state in which they leave it. *)
Definition stdin_calls (data : option (list byte)) (drained : bool) : list ProcEvent :=
  match data with
  | Some d => StdinWrite d :: (if drained then [StdinDrain; StdinClose] else [])
  | None => [StdinClose]
  end.



(** ** The readers under [gather]

    What holds of a reader of stream [s] between two turns, whatever the
    other reader did meanwhile: [pipe0] is the pipe when the readers
    started, [cur] what is left of it, [evs] the calls logged since. *)
Definition has_kill (evs : list ProcEvent) : bool := existsb is_Kill evs.

Definition reader_inv (limit : option Z) (s : StreamId)
    (pipe0 cur : option (list (list byte))) (evs : list ProcEvent)
    (r : Reader) : Prop :=
  concat (reads_of s evs) = rd_output r
  ∧ match pipe0, cur with
    | None, None => rd_done r = true ∧ rd_output r = []
    | Some p0, Some p =>
        if rd_done r
        then ∃ k, read_stream_alone limit (Some p0) = (rd_output r, k)
                  ∧ (if k then has_kill evs = true else In (Read s 8192 []) evs)
        else read_stream_loop (pipe_bytes p) limit (rd_output r) p
             = read_stream_alone limit (Some p0)
    | _, _ => False
    end.

Record gather_inv (c : Child) (limit : option Z) (p0 : Process) (log0 : list ProcEvent)
    (st : St) (evs : list ProcEvent) (out err : Reader) : Prop := {
  gi_log : st_log st = log0 ++ evs;
  gi_out : reader_inv limit Stdout (proc_stdout p0) (proc_stdout (st_proc st)) evs out;
  gi_err : reader_inv limit Stderr (proc_stderr p0) (proc_stderr (st_proc st)) evs err;
  gi_stdin : proc_stdin (st_proc st) = proc_stdin p0;
  gi_returncode :
    proc_returncode (st_proc st)
    = if has_kill evs then Some (kill_status c) else None
}.

(** The handle after [kill()]. *)
Definition killed (c : Child) (p : Process) : Process :=
  match proc_returncode p with
  | None => set_returncode (Some (kill_status c)) p
  | Some _ => p
  end.

(** The reader of a stream among the two, and the pair after a turn of it. *)
Definition reader_of (s : StreamId) (out err : Reader) : Reader :=
  match s with Stdout => out | Stderr => err end.

Definition with_reader (s : StreamId) (r : Reader) (out err : Reader) : Reader * Reader :=
  match s with Stdout => (r, err) | Stderr => (out, r) end.

(** Neither a read nor a kill. *)
Definition quiet_event (e : ProcEvent) : Prop :=
  is_Read e = false ∧ is_Kill e = false.

(** The pipe of a stream of a child started for this invocation. *)
Definition pipe_of (c : Child) (i : Invocation) (s : StreamId)
    : option (list (list byte)) :=
  if capture_output i then Some (data_of c s) else None.

(** A child that writes one full chunk of 8192 bytes to stdout and exits. *)
Definition flood_child : Child :=
  {| cannot_start := None;
     out_data := [replicate (Z.to_nat 8192) "x"%byte];
     err_data := [];
     exit_status := Some 0;
     drains_stdin := true;
     kill_status := -9;
     term_status := None;
     terminate_raises := false;
     schedule := [];
     awaits_before_deadline := λ _, 0%nat |}.

(** A call in binary mode under an output limit. *)
Definition limited_call (limit : Z) : Invocation :=
  {| args := Shell "yes"; text := false; input := None; cwd := None;
     env := ∅; capture_output := true; output_limit := Some limit;
     timeout := None |}.

(** A child that writes "out" to stdout and "er" then "r!" to stderr. *)
Definition chatty_child : Child :=
  {| cannot_start := None;
     out_data := [ ["o"; "u"; "t"]%byte ];
     err_data := [ ["e"; "r"]%byte; ["r"; "!"]%byte ];
     exit_status := None;
     drains_stdin := true;
     kill_status := -9;
     term_status := None;
     terminate_raises := false;
     schedule := [Stdout; Stderr];
     awaits_before_deadline := λ _, 0%nat |}.

(** ** Progress of the readers

    A reader that is not done needs at most one turn per byte left in its
    pipe, and one for the end of the stream. *)
Definition reader_turns (r : Reader) (pipe : option (list (list byte))) : nat :=
  if rd_done r then O else S (pipe_bytes (default [] pipe)).

Definition turns_left (p : Process) (out err : Reader) : nat :=
  (reader_turns out (proc_stdout p) + reader_turns err (proc_stderr p))%nat.

(** The reader of [s] is going to go over the limit. *)
Definition will_overflow (limit : option Z) (p : Process) (out err : Reader)
    (s : StreamId) : Prop :=
  rd_done (reader_of s out err) = false
  ∧ (read_stream_loop (pipe_bytes (default [] (get_stream s p))) limit
       (rd_output (reader_of s out err)) (default [] (get_stream s p))).2 = true.

(** The readers cannot all wait for ever: the pipes will close, or a
    reader will kill the child. *)
Definition will_proceed (c : Child) (limit : option Z) (p : Process)
    (out err : Reader) : Prop :=
  will_close c p = true ∨ ∃ s, will_overflow limit p out err s.

(** The deadline leaves time for [n] suspension points. *)
Definition time_for (n : nat) (d : option nat) : Prop :=
  match d with
  | None => True
  | Some k => (n ≤ k)%nat
  end.

(** ** Running to completion

    Conditions on the host, the child and the gate under which an
    invocation is neither refused, nor stuck, nor cut short.  None of them
    mentions the status with which the child exits. *)
Definition turns_needed (pipe : option (list (list byte))) : nat :=
  match pipe with
  | None => O
  | Some q => S (pipe_bytes q)
  end.

(** A bound on the suspension points of the pipeline: two for the
    standard input, one per turn of a reader, one for the wait. *)
Definition awaits_needed (c : Child) (i : Invocation) : nat :=
  (2 + (turns_needed (pipe_of c i Stdout) + turns_needed (pipe_of c i Stderr)) + 1)%nat.


(** The example call with the output left to the parent's streams. *)
Definition uncaptured_call : Invocation :=
  {| args := Shell "make"; text := true; input := None; cwd := Some "/src";
     env := ∅; capture_output := false; output_limit := None;
     timeout := Some 60 |}.

(** * Further definitions

    Used by the properties of the last part: variations of an invocation
    and of a child, and what is asked of a coroutine under a deadline. *)

(** The invocation with another input. *)
Definition set_input (v : option Input) (i : Invocation) : Invocation :=
  {| args := args i; text := text i; input := v; cwd := cwd i;
     env := env i; capture_output := capture_output i;
     output_limit := output_limit i; timeout := timeout i |}.

(** The child when the readers are resumed in another order. *)
Definition set_schedule (sched : list StreamId) (c : Child) : Child :=
  {| cannot_start := cannot_start c;
     out_data := out_data c;
     err_data := err_data c;
     exit_status := exit_status c;
     drains_stdin := drains_stdin c;
     kill_status := kill_status c;
     term_status := term_status c;
     terminate_raises := terminate_raises c;
     schedule := sched;
     awaits_before_deadline := awaits_before_deadline c |}.

(** ** Coroutines and the deadline

    A coroutine is [undisturbed] when what it returns under a deadline it
    returns without one, after the same calls; it is [prompt] when under a
    deadline it never waits for ever. *)
Definition undisturbed {A} (m : Task A) : Prop :=
  ∀ st a st',
    m st = (Done a, st') →
    m (with_deadline None st) = (Done a, with_deadline None st').

Definition prompt {A} (m : Task A) : Prop :=
  ∀ st r st',
    is_Some (st_deadline st) →
    m st = (r, st') →
    r ≠ Blocked ∧ is_Some (st_deadline st').

(** Where a kill by a reader comes from: the bytes read from one of the
    streams are over the limit, as they are when that stream is read on
    its own. *)
Definition kill_origin (limit : option Z) (p0 : Process)
    (evs : list ProcEvent) : Prop :=
  has_kill evs = true →
  ∃ s, exceeds limit (concat (reads_of s evs)) = true
       ∧ (read_stream_alone limit (get_stream s p0)).2 = true.

(** ** Reaching the exit of the child

    Conditions under which the child is started, fed, read to the end and
    waited for: those of [runs_to_completion] that concern neither the gate
    nor the decoding of what was captured. *)
Record reaches_exit (h : Host) (c : Child) (i : Invocation) : Prop := {
  (** the child can be started *)
  re_starts : cannot_start c = None;
  re_program : args i ≠ Argv [];
  (** it takes the input it is given *)
  re_stdin : resolve_input h i = None ∨ drains_stdin c = true;
  (** it exits on its own, or a reader kills it for exceeding the limit *)
  re_exits :
    is_Some (exit_status c)
    ∨ ∃ s, (read_stream_alone (output_limit i) (pipe_of c i s)).2 = true;
  (** no deadline expires first *)
  re_in_time : time_for (awaits_needed c i) (armed_deadline c i)
}.

(** A child whose output is not text: one byte, 255, on stdout. *)
Definition binary_child : Child :=
  {| cannot_start := None;
     out_data := [ ["255"]%byte ];
     err_data := [];
     exit_status := Some 0;
     drains_stdin := true;
     kill_status := -9;
     term_status := None;
     terminate_raises := false;
     schedule := [];
     awaits_before_deadline := λ _, 0%nat |}.

(** A call of a reader: a read or a kill. *)
Definition reader_event (e : ProcEvent) : Prop :=
  is_Read e = true ∨ is_Kill e = true.

(** What the example call returns on the example child. *)
Definition example_result : ExecResult :=
  {| success := false; returncode := 3;
     stdout := Text "hi!"; stderr := Text "err" |}.

(** * Properties *)

(** ** Chunks *)

Lemma chunk_size_pos : (0 < Z.to_nat 8192)%nat.
Proof. lia. Qed.

Lemma take_chunk_Some n pipe chunk rest :
  (0 < n)%nat →
  take_chunk n pipe = Some (chunk, rest) →
  chunk ≠ [] ∧ (length chunk ≤ n)%nat ∧ concat pipe = chunk ++ concat rest.
Proof.
  intros Hn. induction pipe as [|seg pipe IH]; simpl; [done|].
  destruct seg as [|b seg]; [exact IH|].
  intros [= <- <-]. split; [|split].
  - destruct n; [lia|done].
  - rewrite length_take. lia.
  - rewrite <- (take_drop n (b :: seg)) at 1.
    destruct (drop n (b :: seg)) as [|x l] eqn:E; simpl.
    + by rewrite app_nil_r.
    + by rewrite <- app_assoc.
Qed.

Lemma take_chunk_None n pipe :
  take_chunk n pipe = None → concat pipe = [].
Proof.
  induction pipe as [|seg pipe IH]; simpl; [done|].
  destruct seg; [exact IH|done].
Qed.

Lemma take_chunk_bytes n pipe chunk rest :
  (0 < n)%nat →
  take_chunk n pipe = Some (chunk, rest) →
  (pipe_bytes pipe = length chunk + pipe_bytes rest ∧ 0 < length chunk)%nat.
Proof.
  intros Hn H. destruct (take_chunk_Some _ _ _ _ Hn H) as (Hne & _ & Heq).
  unfold pipe_bytes. rewrite Heq, length_app. split; [done|].
  destruct chunk; [done|simpl; lia].
Qed.

(** ** One reader on its own *)

Lemma read_stream_loop_fuels limit : ∀ fuel fuel' output pipe,
  (pipe_bytes pipe ≤ fuel)%nat →
  (pipe_bytes pipe ≤ fuel')%nat →
  read_stream_loop fuel limit output pipe
  = read_stream_loop fuel' limit output pipe.
Proof.
  induction fuel as [|fuel IH]; intros fuel' output pipe Hle Hle'.
  - destruct fuel' as [|fuel']; [done|]. simpl.
    destruct (take_chunk (Z.to_nat 8192) pipe) as [[chunk rest]|] eqn:E; [|done].
    destruct (take_chunk_bytes _ _ _ _ chunk_size_pos E). lia.
  - simpl.
    destruct (take_chunk (Z.to_nat 8192) pipe) as [[chunk rest]|] eqn:E.
    + destruct (take_chunk_bytes _ _ _ _ chunk_size_pos E) as [Hb Hpos].
      destruct fuel' as [|fuel']; [lia|]. simpl. rewrite E.
      destruct (exceeds limit (output ++ chunk)); [done|].
      apply IH; lia.
    + destruct fuel' as [|fuel']; [done|]. simpl. by rewrite E.
Qed.

Lemma read_stream_loop_fuel fuel limit output pipe :
  (pipe_bytes pipe ≤ fuel)%nat →
  read_stream_loop fuel limit output pipe
  = read_stream_loop (pipe_bytes pipe) limit output pipe.
Proof. intros. by apply read_stream_loop_fuels. Qed.

(** Unfolding the loop by one turn. *)
Lemma read_stream_loop_step limit output pipe chunk rest :
  take_chunk (Z.to_nat 8192) pipe = Some (chunk, rest) →
  read_stream_loop (pipe_bytes pipe) limit output pipe
  = if exceeds limit (output ++ chunk) then (output ++ chunk, true)
    else read_stream_loop (pipe_bytes rest) limit (output ++ chunk) rest.
Proof.
  intros E.
  destruct (take_chunk_bytes _ _ _ _ chunk_size_pos E) as [Hb Hpos].
  destruct (pipe_bytes pipe) as [|m] eqn:Em; [lia|].
  simpl. rewrite E.
  destruct (exceeds limit (output ++ chunk)); [done|].
  apply read_stream_loop_fuel. lia.
Qed.

Lemma read_stream_loop_end limit output pipe :
  take_chunk (Z.to_nat 8192) pipe = None →
  read_stream_loop (pipe_bytes pipe) limit output pipe = (output, false).
Proof.
  intros E. destruct (pipe_bytes pipe); simpl; [done|]. by rewrite E.
Qed.

(** A reader that was not stopped has read its pipe to the end; one that
    was stopped holds more than the limit. *)
Lemma read_stream_loop_result limit pipe : ∀ output,
  let r := read_stream_loop (pipe_bytes pipe) limit output pipe in
  (∃ more, output ++ concat pipe = r.1 ++ more)
  ∧ (r.2 = false → r.1 = output ++ concat pipe)
  ∧ (r.2 = true → exceeds limit r.1 = true).
Proof.
  remember (pipe_bytes pipe) as n eqn:Hn.
  revert pipe Hn. induction (lt_wf n) as [n _ IH]. intros pipe -> output r.
  subst r.
  destruct (take_chunk (Z.to_nat 8192) pipe) as [[chunk rest]|] eqn:E.
  - rewrite (read_stream_loop_step _ _ _ _ _ E).
    destruct (take_chunk_Some _ _ _ _ chunk_size_pos E) as (_ & _ & Hc).
    destruct (take_chunk_bytes _ _ _ _ chunk_size_pos E) as [Hb Hpos].
    destruct (exceeds limit (output ++ chunk)) eqn:Ex; simpl.
    + split; [|done]. exists (concat rest). by rewrite Hc, app_assoc.
    + assert (Hlt : (pipe_bytes rest < pipe_bytes pipe)%nat) by lia.
      specialize (IH _ Hlt rest eq_refl (output ++ chunk)). simpl in IH.
      rewrite Hc, app_assoc. exact IH.
  - rewrite (read_stream_loop_end _ _ _ E). simpl.
    rewrite (take_chunk_None _ _ E), app_nil_r.
    split; [by exists []; rewrite app_nil_r|done].
Qed.

(** The last chunk is the only one that can take the output over the
    limit, so a reader never holds more than a chunk over it. *)
Lemma read_stream_loop_bound L pipe : ∀ output,
  output = [] ∨ exceeds (Some L) output = false →
  let r := read_stream_loop (pipe_bytes pipe) (Some L) output pipe in
  Z.of_nat (length r.1) ≤ Z.max L 0 + 8192
  ∧ (r.2 = false → r.1 = [] ∨ exceeds (Some L) r.1 = false).
Proof.
  remember (pipe_bytes pipe) as n eqn:Hn.
  revert pipe Hn. induction (lt_wf n) as [n _ IH]. intros pipe -> output Hout r.
  subst r.
  assert (Hlen : Z.of_nat (length output) ≤ Z.max L 0).
  { destruct Hout as [->|Hx]; [simpl; lia|].
    unfold exceeds in Hx. lia. }
  destruct (take_chunk (Z.to_nat 8192) pipe) as [[chunk rest]|] eqn:E.
  - rewrite (read_stream_loop_step _ _ _ _ _ E).
    destruct (take_chunk_Some _ _ _ _ chunk_size_pos E) as (_ & Hsz & _).
    destruct (take_chunk_bytes _ _ _ _ chunk_size_pos E) as [Hb Hpos].
    destruct (exceeds (Some L) (output ++ chunk)) eqn:Ex; simpl.
    + split; [|done]. rewrite length_app. lia.
    + apply IH with (y := pipe_bytes rest); [lia|done|by right].
  - rewrite (read_stream_loop_end _ _ _ E). simpl. split; [lia|done].
Qed.

(** ** Rules for [behaves] *)

Section Behaves.
Context (I : Process → Prop) (P : ProcEvent → Prop) (E : Exn → Prop).

Lemma behaves_ret {A} (a : A) : behaves I P E (ret a).
Proof.
  intros st r st' HI [= <- <-]. split; [done|]. split; [|done].
  exists []. by rewrite app_nil_r.
Qed.

Lemma behaves_raise {A} e : E e → behaves I P E (raise (A := A) e).
Proof.
  intros He st r st' HI [= <- <-]. split; [done|]. split; [|split; [done|]].
  - exists []. by rewrite app_nil_r.
  - intros ? [= <-]. by right.
Qed.

Lemma behaves_bind {A B} (m : Task A) (f : A → Task B) :
  behaves I P E m → (∀ a, behaves I P E (f a)) → behaves I P E (bind m f).
Proof.
  intros Hm Hf st r st' HI. unfold bind.
  destruct (m st) as [ra st1] eqn:Em.
  destruct (Hm _ _ _ HI Em) as (HI1 & (evs & Hlog & Hevs) & Hd & Hr).
  destruct ra as [a|e|].
  - intros Ef.
    destruct (Hf _ _ _ _ HI1 Ef) as (HI2 & (evs' & Hlog' & Hevs') & Hd' & Hr').
    split; [done|]. split; [|split].
    + exists (evs ++ evs'). rewrite Hlog', Hlog, app_assoc.
      split; [done|by apply Forall_app].
    + auto.
    + intros e He. destruct (Hr' e He) as [[-> Hne]|]; [left|by right].
      split; [done|]. intros Hnone. by apply Hne, Hd.
  - intros [= <- <-]. split; [done|]. split; [eauto|split; [done|]].
    intros ? [= <-]. by apply Hr.
  - intros [= <- <-]. split; [done|]. split; [eauto|done].
Qed.

(** Reading the handle tells that it satisfies the invariant. *)
Lemma behaves_get_proc {B} (f : Process → Task B) :
  (∀ p, I p → behaves I P E (f p)) → behaves I P E (bind get_proc f).
Proof.
  intros Hf st r st' HI. unfold bind, get_proc. by apply Hf.
Qed.

Lemma behaves_set_proc p : I p → behaves I P E (set_proc p).
Proof.
  intros Hp st r st' HI [= <- <-]. simpl. split; [done|]. split; [|done].
  exists []. by rewrite app_nil_r.
Qed.

Lemma behaves_emit e : P e → behaves I P E (emit e).
Proof.
  intros He st r st' HI [= <- <-]. simpl. split; [done|]. split; [|done].
  exists [e]. split; [done|by constructor].
Qed.

Lemma behaves_await ready : behaves I P E (await ready).
Proof.
  intros st r st' HI. unfold await.
  destruct (st_deadline st) as [[|k]|] eqn:Ed; [|destruct ready..];
    intros [= <- <-]; simpl; (split; [done|]);
    (split; [by exists []; rewrite app_nil_r|]);
    (split; [done|]); intros e [= <-]; by left.
Qed.

Lemma behaves_never {A} : behaves I P E (never (A := A)).
Proof.
  intros st r st' HI. unfold never.
  destruct (st_deadline st) eqn:Ed; intros [= <- <-]; (split; [done|]);
    (split; [by exists []; rewrite app_nil_r|]);
    (split; [done|]); intros e [= <-]; by left.
Qed.

Lemma behaves_try_except {A} (body : Task A) handles handler (E' : Exn → Prop) :
  behaves I P E' body →
  (∀ e, E' e → handles e = false → E e) →
  (∀ e, handles e = true → behaves I P E (handler e)) →
  handles CancelledError = false →
  behaves I P E (try_except body handles handler).
Proof.
  intros Hb Hpass Hh Hc st r st' HI. unfold try_except.
  destruct (body st) as [rb st1] eqn:Eb.
  destruct (Hb _ _ _ HI Eb) as (HI1 & (evs & Hlog & Hevs) & Hd & Hr).
  destruct rb as [a|e|].
  - intros [= <- <-]. split; [done|]. split; [eauto|done].
  - destruct (handles e) eqn:Ehe.
    + intros Eh.
      destruct (Hh _ Ehe _ _ _ HI1 Eh) as (HI2 & (evs' & Hlog' & Hevs') & Hd' & Hr').
      split; [done|]. split; [|split].
      * exists (evs ++ evs'). rewrite Hlog', Hlog, app_assoc.
        split; [done|by apply Forall_app].
      * auto.
      * intros e' He'. destruct (Hr' e' He') as [[-> Hne]|]; [left|by right].
        split; [done|]. intros Hnone. by apply Hne, Hd.
    + intros [= <- <-]. split; [done|]. split; [eauto|split; [done|]].
      intros e' [= <-]. destruct (Hr e eq_refl) as [|He]; [by left|].
      right. by apply Hpass.
  - intros [= <- <-]. split; [done|]. split; [eauto|done].
Qed.
End Behaves.

Lemma behaves_mono {A} I (P Q : ProcEvent → Prop) (E F : Exn → Prop) (m : Task A) :
  behaves I P E m → (∀ e, P e → Q e) → (∀ e, E e → F e) → behaves I Q F m.
Proof.
  intros Hm HP HE st r st' HI Em.
  destruct (Hm _ _ _ HI Em) as (HI1 & (evs & Hlog & Hevs) & Hd & Hr).
  split; [done|]. split; [|split; [done|]].
  - exists evs. split; [done|]. eapply Forall_impl; eauto.
  - intros e He. destruct (Hr e He); [by left|right; auto].
Qed.

(** Decomposes a goal [behaves I P E m] along the structure of [m]. *)
Ltac behave :=
  repeat first
    [ apply behaves_ret
    | apply behaves_await
    | apply behaves_never
    | apply behaves_emit; solve [auto]
    | apply behaves_raise; solve [auto]
    | apply behaves_set_proc; solve [auto]
    | apply behaves_get_proc; intros ? ?
    | apply behaves_bind; [|intros ?]
    | match goal with
      | |- behaves _ _ _ (match ?x with _ => _ end) => destruct x
      end ].

Section Primitives.
Context (I : Process → Prop) (P : ProcEvent → Prop) (E : Exn → Prop).
Context (c : Child).
Hypothesis I_returncode : ∀ p rc, I p → I (set_returncode rc p).

Lemma behaves_proc_kill : P Kill → behaves I P E (proc_kill c).
Proof. intros. unfold proc_kill. behave. Qed.

Lemma behaves_proc_terminate :
  P Terminate → E ProcessLookupError → behaves I P E (proc_terminate c).
Proof. intros. unfold proc_terminate. behave. Qed.

Lemma behaves_proc_wait : (∀ rc, P (Wait rc)) → behaves I P E (proc_wait c).
Proof. intros. unfold proc_wait. behave. Qed.

Lemma behaves_asyncio_sleep n : P (Sleep n) → behaves I P E (asyncio_sleep n).
Proof. intros. unfold asyncio_sleep. behave. Qed.

Lemma behaves_stream_read s n :
  (∀ p v, I p → I (set_stream s v p)) →
  (∀ chunk, P (Read s n chunk)) →
  behaves I P E (stream_read c s n).
Proof. intros. unfold stream_read. behave. Qed.

Lemma behaves_read_iter i s output :
  (∀ p v, I p → I (set_stream s v p)) →
  (∀ chunk, P (Read s 8192 chunk)) →
  P Kill →
  behaves I P E (read_iter c i s output).
Proof.
  intros. unfold read_iter.
  apply behaves_bind; [by apply behaves_stream_read|].
  intros chunk. destruct chunk; [behave|].
  destruct (exceeds _ _); [|behave].
  apply behaves_bind; [by apply behaves_proc_kill|]. intros. behave.
Qed.

Lemma behaves_gather_from i :
  (∀ p s v, I p → I (set_stream s v p)) →
  (∀ s chunk, P (Read s 8192 chunk)) →
  P Kill →
  ∀ fuel sched out err, behaves I P E (gather_from c i fuel sched out err).
Proof.
  intros HI HR HK. induction fuel as [|fuel IH]; intros sched out err; simpl.
  - destruct (rd_done out && rd_done err); behave.
  - destruct (rd_done out && rd_done err); [behave|].
    apply behaves_get_proc. intros p Hp.
    destruct (pick _ _) as [[|]|]; [..|behave];
      (apply behaves_bind; [apply behaves_read_iter; auto|]);
      intros [output done]; apply IH.
Qed.

Lemma behaves_gather_read_streams i :
  (∀ p s v, I p → I (set_stream s v p)) →
  (∀ s chunk, P (Read s 8192 chunk)) →
  P Kill →
  behaves I P E (gather_read_streams c i).
Proof.
  intros. unfold gather_read_streams.
  apply behaves_get_proc. intros p Hp. by apply behaves_gather_from.
Qed.
End Primitives.

Section Stdin.
Context (I : Process → Prop) (P : ProcEvent → Prop) (E : Exn → Prop).
Context (c : Child).
Hypothesis I_stdin : ∀ p v, I p → I (set_stdin v p).

Lemma behaves_stdin_write data : P (StdinWrite data) → behaves I P E (stdin_write data).
Proof. intros. unfold stdin_write, update_stdin. behave. Qed.

Lemma behaves_stdin_drain : P StdinDrain → behaves I P E (stdin_drain c).
Proof. intros. unfold stdin_drain. behave. Qed.

Lemma behaves_stdin_close : P StdinClose → behaves I P E stdin_close.
Proof. intros. unfold stdin_close, update_stdin. behave. Qed.

Lemma behaves_stdin_wait_closed : P StdinWaitClosed → behaves I P E stdin_wait_closed.
Proof. intros. unfold stdin_wait_closed. behave. Qed.
End Stdin.

Lemma behaves_terminate_timed_out I (P : ProcEvent → Prop) (E : Exn → Prop) c :
  (∀ p rc, I p → I (set_returncode rc p)) →
  P Terminate → P Kill → P LogWarning → (∀ n, P (Sleep n)) →
  behaves I P E (terminate_timed_out c).
Proof.
  intros. unfold terminate_timed_out.
  apply behaves_try_except with (E' := λ e, e = ProcessLookupError).
  - apply behaves_bind; [by apply behaves_proc_terminate|]. intros _.
    apply behaves_bind; [by apply behaves_asyncio_sleep|]. intros _.
    apply behaves_get_proc. intros p Hp.
    destruct (proc_returncode p); [behave|by apply behaves_proc_kill].
  - by intros e ->.
  - intros. behave.
  - done.
Qed.

Lemma behaves_decode I P (E : Exn → Prop) h b :
  E UnicodeDecodeError → behaves I P E (decode h b).
Proof. intros. unfold decode. behave. Qed.

(** A deadline turns the cancellation of its body into [TimeoutError]. *)
Lemma behaves_asyncio_timeout {A} I P (E : Exn → Prop) c delay (body : Task A) :
  behaves I P E body →
  E TimeoutError →
  behaves I P E (asyncio_timeout c delay body).
Proof.
  intros Hb HE st r st' HI. unfold asyncio_timeout.
  destruct (body _) as [rb st1] eqn:Eb.
  apply Hb in Eb; [|done].
  destruct Eb as (HI1 & (evs & Hlog & Hevs) & Hd & Hr).
  simpl in *.
  assert (Hcommon :
    ∀ r0, (∀ e, r0 = Raised e → E e) →
      (r0, {| st_proc := st_proc st1; st_log := st_log st1;
              st_deadline := st_deadline st |}) = (r, st') →
      I (st_proc st')
      ∧ (∃ evs, st_log st' = st_log st ++ evs ∧ Forall P evs)
      ∧ (st_deadline st = None → st_deadline st' = None)
      ∧ (∀ e, r = Raised e → e = CancelledError ∧ st_deadline st ≠ None ∨ E e)).
  { intros r0 Hr0 [= <- <-]. simpl. split; [done|]. split; [eauto|].
    split; [done|]. intros e He. right. by apply Hr0. }
  destruct rb as [a|e|]; [by apply Hcommon..| |by apply Hcommon].
  destruct (Hr e eq_refl) as [[-> _]|He].
  - apply Hcommon. by intros ? [= <-].
  - destruct e; apply Hcommon; by intros ? [= <-].
Qed.

(** ** The pipeline *)

Lemma behaves_write_stdin I (P : ProcEvent → Prop) (E : Exn → Prop) h c i :
  (∀ p v, I p → I (set_stdin v p)) →
  (∀ data, P (StdinWrite data)) → P StdinDrain → P StdinClose → P StdinWaitClosed →
  behaves I P E (write_stdin h c i).
Proof.
  intros. unfold write_stdin. apply behaves_get_proc. intros p Hp.
  destruct (proc_stdin p); [|behave].
  apply behaves_bind.
  - destruct (resolve_input h i); [|behave].
    apply behaves_bind; [by apply behaves_stdin_write|]. intros _.
    by apply behaves_stdin_drain.
  - intros _. apply behaves_bind; [by apply behaves_stdin_close|]. intros _.
    by apply behaves_stdin_wait_closed.
Qed.

Lemma behaves_collect_result I (P : ProcEvent → Prop) (E : Exn → Prop) h c i :
  behaves I P E (gather_read_streams c i) →
  (∀ p rc, I p → I (set_returncode rc p)) →
  (∀ rc, P (Wait rc)) →
  E UnicodeDecodeError →
  behaves I P E (collect_result h c i).
Proof.
  intros Hg HI HW HE. unfold collect_result.
  apply behaves_bind; [done|]. intros [out err].
  apply behaves_bind; [by apply behaves_proc_wait|]. intros rc.
  destruct (text i); [|behave].
  apply behaves_bind; [destruct (capture_output i); [by apply behaves_decode|behave]|].
  intros out'.
  apply behaves_bind; [destruct (capture_output i); [by apply behaves_decode|behave]|].
  intros err'. behave.
Qed.

(** Without pipes there is nothing to read. *)
Lemma gather_read_streams_uncaptured c i st :
  proc_stdout (st_proc st) = None →
  proc_stderr (st_proc st) = None →
  gather_read_streams c i st = (Done ([], []), st).
Proof.
  intros Ho He. unfold gather_read_streams, bind, get_proc, read_stream_start.
  simpl. rewrite Ho, He. simpl. by destruct (gather_fuel _).
Qed.

Lemma behaves_gather_uncaptured P E c i :
  behaves uncaptured P E (gather_read_streams c i).
Proof.
  intros st r st' [Ho He]. rewrite gather_read_streams_uncaptured by done.
  intros [= <- <-]. split; [done|]. split; [|done].
  exists []. by rewrite app_nil_r.
Qed.

(** [await_result] behaves as the pipeline does, with the calls of the
    timeout handler and [TimeoutError] added. *)
Lemma behaves_await_result I (P : ProcEvent → Prop) (E : Exn → Prop) h c i :
  behaves I P E (run_command_result h c i) →
  (∀ p rc, I p → I (set_returncode rc p)) →
  P Terminate → P Kill → P LogWarning → (∀ n, P (Sleep n)) →
  behaves I P (λ e, E e ∨ (e = TimeoutError ∧ truthy (timeout i) = true))
    (await_result h c i).
Proof.
  intros Hb HI HT HK HL HS. unfold await_result.
  assert (Hplain : behaves I P (λ e, E e ∨ (e = TimeoutError ∧ truthy (timeout i) = true))
                     (run_command_result h c i)).
  { eapply behaves_mono; [exact Hb|done|by left]. }
  destruct (timeout i) as [delay|] eqn:Et; [|done].
  destruct (delay =? 0) eqn:Ez; [done|].
  assert (Htr : truthy (Some delay) = true) by (simpl; by rewrite Ez).
  eapply behaves_try_except
    with (E' := λ e, E e ∨ (e = TimeoutError ∧ truthy (Some delay) = true)).
  - destruct (python_ge_3_11 h); unfold asyncio_wait_for;
      (apply behaves_asyncio_timeout; [|by right]);
      (eapply behaves_mono; [exact Hb|done|by left]).
  - done.
  - intros e _. apply behaves_bind.
    + apply behaves_terminate_timed_out; auto.
    + intros _. apply behaves_raise. by right.
  - done.
Qed.

(** ** The anatomy of a run *)

Lemma child_log_events pre log post :
  Forall (λ e, ∀ x, e ≠ OnChild x) pre →
  Forall (λ e, ∀ x, e ≠ OnChild x) post →
  omap (λ e, match e with OnChild x => Some x | _ => None end)
    (pre ++ (OnChild <$> log) ++ post) = log.
Proof.
  intros Hpre Hpost.
  assert (Hnil : ∀ l, Forall (λ e, ∀ x, e ≠ OnChild x) l →
            omap (λ e, match e with OnChild x => Some x | _ => None end) l = []).
  { induction 1 as [|e l He _ IH]; [done|]. simpl.
    destruct e; try done. by destruct (He e). }
  rewrite !omap_app, (Hnil _ Hpre), (Hnil _ Hpost), app_nil_r. simpl.
  induction log as [|e log IH]; [done|].
  rewrite fmap_cons. cbn [omap list_omap]. by rewrite IH.
Qed.

(** The events of a run, by the way it ends. *)
Lemma subprocess_unfold h c g i :
  subprocess h c g i
  = if gate_admits g "subprocesses" (context_var_get h g) then
      let r := run_command_timeout h c i in
      let body := [GateEnter "subprocesses" (context_var_get h g);
                   GateAcquire "subprocesses";
                   TraceBegin "Subprocess" (trace_message h i)]
                  ++ (OnChild <$> cr_log r) in
      match cr_result r with
      | Blocked =>
          {| outcome := NeverReturns; events := body;
             globals := gate_acquire "subprocesses" g; child := cr_proc r |}
      | res =>
          {| outcome := outcome_of res;
             events := body ++ [TraceEnd; GateRelease "subprocesses"];
             globals := gate_release "subprocesses" (gate_acquire "subprocesses" g);
             child := cr_proc r |}
      end
    else
      {| outcome := NeverReturns;
         events := [GateEnter "subprocesses" (context_var_get h g)];
         globals := g; child := None |}.
Proof.
  unfold subprocess, concurrency, trace_action, run_of.
  destruct (gate_admits _ _ _); [|done]. cbn [outcome events globals child].
  destruct (cr_result _); cbn [outcome_of]; f_equal;
    cbn [app]; rewrite <- ?app_assoc; by rewrite ?app_nil_r.
Qed.

Lemma subprocess_admitted h c g i :
  gate_admits g "subprocesses" (context_var_get h g) = true →
  let r := run_command_timeout h c i in
  child_log (subprocess h c g i) = cr_log r
  ∧ child (subprocess h c g i) = cr_proc r
  ∧ outcome (subprocess h c g i)
    = match cr_result r with
      | Done res => Returned res
      | Raised e => Raises e
      | Blocked => NeverReturns
      end.
Proof.
  intros Hg r. unfold child_log. rewrite subprocess_unfold, Hg. cbv zeta. fold r.
  destruct (cr_result r); cbn [events child outcome outcome_of]; (split; [|done]).
  - apply (child_log_events [_; _; _] _ [_; _]);
      repeat constructor; done.
  - apply (child_log_events [_; _; _] _ [_; _]);
      repeat constructor; done.
  - rewrite <- (app_nil_r (OnChild <$> cr_log r)).
    apply (child_log_events [_; _; _] _ []); repeat constructor; done.
Qed.

Lemma subprocess_refused h c g i :
  gate_admits g "subprocesses" (context_var_get h g) = false →
  subprocess h c g i
  = {| outcome := NeverReturns;
       events := [GateEnter "subprocesses" (context_var_get h g)];
       globals := g; child := None |}.
Proof. intros Hg. by rewrite subprocess_unfold, Hg. Qed.

Lemma behaves_run_command_result h c i :
  behaves (λ _, True) pipeline_event (λ e, e = UnicodeDecodeError)
    (run_command_result h c i).
Proof.
  unfold run_command_result.
  apply behaves_bind.
  - by apply behaves_write_stdin.
  - intros _. apply behaves_collect_result; try done.
    by apply behaves_gather_read_streams.
Qed.

Lemma behaves_run_command_result_any (P : ProcEvent → Prop) h c i :
  (∀ e, post_spawn e → P e) →
  behaves (λ _, True) P (λ e, e = UnicodeDecodeError) (run_command_result h c i).
Proof.
  intros HP. eapply behaves_mono; [apply behaves_run_command_result| |done].
  intros e He. apply HP. by destruct e.
Qed.

Lemma behaves_await_result_any h c i :
  behaves (λ _, True) post_spawn (pipeline_raises i) (await_result h c i).
Proof.
  eapply behaves_mono.
  - apply behaves_await_result with (E := λ e, e = UnicodeDecodeError);
      [by apply behaves_run_command_result_any|done..].
  - done.
  - intros e [->|[-> ?]]; [by left|by right].
Qed.

(** The log of a run is the log of the spawn followed by calls on the
    child; no deadline is armed outside the pipeline, so nothing is
    cancelled there. *)
Lemma run_command_timeout_anatomy h c i :
  let r := run_command_timeout h c i in
  let sp := run_command_spawn h c i in
  (∃ evs, cr_log r = sp.1 ++ evs ∧ Forall post_spawn evs)
  ∧ (∀ e, cr_result r = Raised e →
       sp.2 = inl e ∨ ((∃ p, sp.2 = inr p) ∧ pipeline_raises i e)).
Proof.
  intros r sp. unfold r, run_command_timeout. fold sp.
  destruct sp as [log [e|p]] eqn:Esp; simpl.
  - split; [exists []; by rewrite app_nil_r|]. intros ? [= <-]. by left.
  - destruct (await_result h c i _) as [res st] eqn:Er. simpl.
    destruct (behaves_await_result_any h c i _ _ _ I Er)
      as (_ & Hlog & _ & Hr). simpl in *.
    split; [done|]. intros e ->. right. split; [by eexists|].
    destruct (Hr e eq_refl) as [[_ ?]|]; done.
Qed.

Lemma run_command_spawn_log h c i e :
  In e (run_command_spawn h c i).1 → spawn_options_of e = Some (spawn_options h i).
Proof.
  unfold run_command_spawn, create_subprocess.
  destruct (args i) as [cmd|[|program arguments]]; simpl; [|done|];
    by intros [<-|[]].
Qed.

Lemma run_command_spawn_exn h c i e :
  (run_command_spawn h c i).2 = inl e →
  e = IndexError ∨ ∃ msg, e = SpawnError msg.
Proof.
  unfold run_command_spawn, create_subprocess.
  destruct (args i) as [cmd|[|program arguments]]; simpl;
    [|intros [= <-]; by left|];
    destruct (cannot_start c); intros [= <-]; eauto.
Qed.

(** ** C4 *)

(** C4. Every invocation that ends, whether it returns a result (with a
    zero or a non-zero status) or raises ([TimeoutError], a failure to
    spawn, anything else), has entered the "subprocesses" gate and taken
    one slot first, made all its calls on the child while holding it, and
    given it back last and once: the slots held are afterwards what they
    were before. *)
Theorem C4_slot_released_on_every_exit_path h c g i :
  outcome (subprocess h c g i) ≠ NeverReturns →
  ∃ body,
    events (subprocess h c g i)
    = GateEnter "subprocesses" (context_var_get h g)
      :: GateAcquire "subprocesses" :: body ++ [GateRelease "subprocesses"]
    ∧ Forall (λ e, is_gate_event e = false) body
    ∧ (∀ e, In (OnChild e) (events (subprocess h c g i)) → In (OnChild e) body)
    ∧ (∀ name, held (globals (subprocess h c g i)) name = held g name).
Proof.
  rewrite subprocess_unfold.
  destruct (gate_admits g "subprocesses" (context_var_get h g)); [|done].
  cbv zeta. set (r := run_command_timeout h c i).
  assert (Hbody : Forall (λ e, is_gate_event e = false)
            (TraceBegin "Subprocess" (trace_message h i)
               :: (OnChild <$> cr_log r) ++ [TraceEnd])).
  { constructor; [done|]. apply Forall_app. split; [|by repeat constructor].
    apply Forall_fmap, Forall_true. done. }
  assert (Hheld : ∀ name,
            held (gate_release "subprocesses" (gate_acquire "subprocesses" g)) name
            = held g name).
  { intros name. unfold held, gate_release, gate_acquire. cbn [holders].
    destruct (decide (name = "subprocesses")) as [->|Hne].
    - rewrite !lookup_insert_eq. simpl. unfold held. cbn [holders].
      by rewrite lookup_insert_eq.
    - by rewrite !lookup_insert_ne. }
  assert (Hin : ∀ e,
            In (OnChild e)
              (([GateEnter "subprocesses" (context_var_get h g);
                 GateAcquire "subprocesses";
                 TraceBegin "Subprocess" (trace_message h i)]
                ++ (OnChild <$> cr_log r))
               ++ [TraceEnd; GateRelease "subprocesses"]) →
            In (OnChild e)
              ((TraceBegin "Subprocess" (trace_message h i)
                  :: (OnChild <$> cr_log r) ++ [TraceEnd]))).
  { intros e. rewrite !in_app_iff. simpl. rewrite in_app_iff. simpl.
    intros [[[|[|[|[]]]]|]|[|[|[]]]]; try done. right. by left. }
  destruct (cr_result r); cbn [outcome events globals outcome_of]; [| |done];
    intros _;
    (eexists; split; [|split; [exact Hbody|split; [exact Hin|exact Hheld]]]);
    simpl; by rewrite <- !app_assoc.
Qed.

Lemma C4_witness :
  ∃ body,
    events (subprocess example_host example_child example_globals example_call)
    = GateEnter "subprocesses" (context_var_get example_host example_globals)
      :: GateAcquire "subprocesses" :: body ++ [GateRelease "subprocesses"]
    ∧ Forall (λ e, is_gate_event e = false) body
    ∧ (∀ e, In (OnChild e)
              (events (subprocess example_host example_child example_globals
                         example_call)) →
            In (OnChild e) body)
    ∧ (∀ name,
         held (globals (subprocess example_host example_child example_globals
                          example_call)) name
         = held example_globals name).
Proof.
  apply (C4_slot_released_on_every_exit_path
           example_host example_child example_globals example_call).
  vm_compute. discriminate.
Defined.

(** ** C7 *)

Lemma child_log_In h c g i e :
  In (OnChild e) (events (subprocess h c g i)) → In e (child_log (subprocess h c g i)).
Proof.
  unfold child_log. intros Hin.
  apply list_elem_of_In, list_elem_of_omap. exists (OnChild e).
  split; [by apply list_elem_of_In|done].
Qed.

Lemma child_log_spawn_events h c g i e o :
  In e (child_log (subprocess h c g i)) →
  spawn_options_of e = Some o →
  o = spawn_options h i.
Proof.
  destruct (gate_admits g "subprocesses" (context_var_get h g)) eqn:Hg.
  - destruct (subprocess_admitted h c g i Hg) as (-> & _ & _).
    destruct (run_command_timeout_anatomy h c i) as ((evs & -> & Hevs) & _).
    rewrite in_app_iff. intros [Hin|Hin] Ho.
    + apply run_command_spawn_log in Hin. congruence.
    + apply list_elem_of_In in Hin.
      rewrite Forall_forall in Hevs. specialize (Hevs _ Hin).
      unfold post_spawn in Hevs. congruence.
  - rewrite (subprocess_refused h c g i Hg). by intros [].
Qed.

(** C7. Whenever an invocation starts a child, in the shell form or the
    argument-vector form, the environment it passes is the parent's with
    [env] merged over it: a variable that [env] does not name keeps the
    value (or the absence) it has in [os.environ], and a variable that
    [env] names has the value [env] gives it. *)
Theorem C7_environment_merged_over_inherited h c g i e o :
  In (OnChild e) (events (subprocess h c g i)) →
  spawn_options_of e = Some o →
  ∀ k : string,
    (env i !! k = None → opt_env o !! k = os_environ h !! k)
    ∧ (∀ v, env i !! k = Some v → opt_env o !! k = Some v).
Proof.
  intros Hin Ho k.
  rewrite (child_log_spawn_events h c g i e o (child_log_In _ _ _ _ _ Hin) Ho).
  unfold spawn_options. cbn [opt_env]. split.
  - intros Hk. by rewrite lookup_union_r.
  - intros v Hk. by apply lookup_union_Some_l.
Qed.

Lemma C7_witness :
  opt_env (spawn_options example_host example_call) !! "PATH" = Some "/bin"
  ∧ opt_env (spawn_options example_host example_call) !! "HOME" = Some "/tmp".
Proof.
  pose proof (C7_environment_merged_over_inherited
                example_host example_child example_globals example_call
                (SpawnExec "echo" ["hi"] (spawn_options example_host example_call))
                (spawn_options example_host example_call)) as H.
  assert (Hin : In (OnChild (SpawnExec "echo" ["hi"]
                               (spawn_options example_host example_call)))
                  (events (subprocess example_host example_child example_globals
                             example_call))).
  { vm_compute. tauto. }
  split.
  - destruct (H Hin eq_refl "PATH") as [Hk _]. rewrite Hk; reflexivity.
  - destruct (H Hin eq_refl "HOME") as [_ Hk]. apply Hk. reflexivity.
Defined.

(** ** C8 *)

Lemma subprocess_head h c g i :
  head (events (subprocess h c g i))
  = Some (GateEnter "subprocesses" (context_var_get h g)).
Proof.
  rewrite subprocess_unfold.
  destruct (gate_admits _ _ _); [|done]. cbv zeta.
  by destruct (cr_result (run_command_timeout h c i)).
Qed.

Lemma subprocess_context_var h c g i :
  max_subprocesses_context_var (globals (subprocess h c g i))
  = max_subprocesses_context_var g.
Proof.
  rewrite subprocess_unfold.
  destruct (gate_admits _ _ _); [|done]. cbv zeta.
  by destruct (cr_result (run_command_timeout h c i)).
Qed.

Lemma context_var_get_init h m g :
  context_var_get h (init_max_subprocesses h m g)
  = if truthy m then default 0 m else default_max_subprocesses h.
Proof. done. Qed.

(** C8. The default of the limit is what [os.cpu_count()] reports, and 1
    when it reports nothing or zero, so it is at least 1;
    [init_max_subprocesses] sets it, to its argument when that is truthy
    and to the default otherwise; every invocation enters the gate with
    the value the variable has at that moment, and leaves the variable as
    it found it, so that of two invocations around a call of
    [init_max_subprocesses] the first runs under the old limit and the
    second under the new one. *)
Theorem C8_limit_read_at_each_invocation h g :
  ((os_cpu_count h = None → default_max_subprocesses h = 1)
   ∧ (os_cpu_count h = Some 0%N → default_max_subprocesses h = 1)
   ∧ (∀ n, os_cpu_count h = Some n → n ≠ 0%N →
        default_max_subprocesses h = Z.of_N n)
   ∧ 1 ≤ default_max_subprocesses h)
  ∧ (max_subprocesses_context_var g = None →
     context_var_get h g = default_max_subprocesses h)
  ∧ (∀ m,
       context_var_get h (init_max_subprocesses h m g)
       = if truthy m then default 0 m else default_max_subprocesses h)
  ∧ (∀ c1 i1 m c2 i2,
       let r1 := subprocess h c1 g i1 in
       let r2 := subprocess h c2 (init_max_subprocesses h m (globals r1)) i2 in
       head (events r1) = Some (GateEnter "subprocesses" (context_var_get h g))
       ∧ max_subprocesses_context_var (globals r1) = max_subprocesses_context_var g
       ∧ head (events r2)
         = Some (GateEnter "subprocesses"
                   (if truthy m then default 0 m else default_max_subprocesses h))).
Proof.
  split; [|split; [|split]].
  - unfold default_max_subprocesses.
    destruct (os_cpu_count h) as [n|]; [|done].
    destruct (N.eqb_spec n 0) as [->|Hn]; repeat split; try done; try lia.
    + intros n' [= <-] ?. done.
    + intros [= ->]. done.
    + intros n' [= <-] _. done.
  - unfold context_var_get. by intros ->.
  - intros m. apply context_var_get_init.
  - intros c1 i1 m c2 i2 r1 r2. split; [apply subprocess_head|].
    split; [apply subprocess_context_var|].
    unfold r2. by rewrite subprocess_head, context_var_get_init.
Qed.

(** ** C10 *)

Lemma read_iter_ext c i i' s output st :
  output_limit i = output_limit i' →
  read_iter c i s output st = read_iter c i' s output st.
Proof. intros H. unfold read_iter. by rewrite H. Qed.

Lemma gather_from_ext c i i' :
  output_limit i = output_limit i' →
  ∀ fuel sched out err st,
    gather_from c i fuel sched out err st = gather_from c i' fuel sched out err st.
Proof.
  intros H. induction fuel as [|fuel IH]; intros sched out err st; [done|].
  simpl. destruct (rd_done out && rd_done err); [done|].
  unfold bind, get_proc.
  destruct (pick _ _) as [[|]|]; [| |done];
    rewrite (read_iter_ext c i i') by done;
    destruct (read_iter c i' _ _ st) as [[[o d]| |] st1]; try done; apply IH.
Qed.

Lemma run_command_result_set_timeout h c i t st :
  run_command_result h c (set_timeout t i) st = run_command_result h c i st.
Proof.
  unfold run_command_result, bind.
  change (write_stdin h c (set_timeout t i)) with (write_stdin h c i).
  destruct (write_stdin h c i st) as [[[]| |] st1]; [|done..].
  unfold collect_result, gather_read_streams, bind, get_proc.
  by rewrite (gather_from_ext c (set_timeout t i) i).
Qed.

(** C10. With [timeout=0] the call is the call without a timeout: the
    same outcome, the same calls, the same final state, whatever the child
    does; it never raises [TimeoutError] and never terminates the child. *)
Theorem C10_zero_timeout_is_no_timeout h c g i :
  timeout i = Some 0 →
  subprocess h c g i = subprocess h c g (set_timeout None i)
  ∧ outcome (subprocess h c g i) ≠ Raises TimeoutError
  ∧ ¬ In (OnChild Terminate) (events (subprocess h c g i)).
Proof.
  intros Ht.
  assert (Heq : run_command_timeout h c i = run_command_timeout h c (set_timeout None i)).
  { unfold run_command_timeout, await_result. rewrite Ht. simpl.
    change (run_command_spawn h c (set_timeout None i)) with (run_command_spawn h c i).
    destruct (run_command_spawn h c i) as [log [e|p]]; [done|].
    by rewrite run_command_result_set_timeout. }
  split; [|split].
  - rewrite !subprocess_unfold, Heq. done.
  - destruct (gate_admits g "subprocesses" (context_var_get h g)) eqn:Hg.
    + destruct (subprocess_admitted h c g i Hg) as (_ & _ & ->).
      destruct (run_command_timeout_anatomy h c i) as (_ & Hr).
      destruct (cr_result _) as [res|e|]; [done| |done].
      intros [= ->].
      destruct (Hr _ eq_refl) as [Hsp|[_ [?|[_ Htr]]]]; [|done|].
      * apply run_command_spawn_exn in Hsp. by destruct Hsp as [|[]].
      * by rewrite Ht in Htr.
    + by rewrite (subprocess_refused h c g i Hg).
  - intros Hin. apply child_log_In in Hin.
    destruct (gate_admits g "subprocesses" (context_var_get h g)) eqn:Hg.
    + destruct (subprocess_admitted h c g i Hg) as (Hlog & _ & _).
      rewrite Hlog in Hin. clear Hlog.
      unfold run_command_timeout, await_result in Hin. rewrite Ht in Hin.
      simpl in Hin.
      pose proof (run_command_spawn_log h c i Terminate) as Hsp.
      destruct (run_command_spawn h c i) as [log [e|p]]; simpl in *.
      * by specialize (Hsp Hin).
      * destruct (run_command_result h c i _) as [r st] eqn:Er. simpl in Hin.
        destruct (behaves_run_command_result h c i _ _ _ I Er)
          as (_ & (evs & Hl & Hevs) & _). simpl in Hl.
        rewrite Hl, in_app_iff in Hin. destruct Hin as [Hin|Hin].
        -- by specialize (Hsp Hin).
        -- apply list_elem_of_In in Hin. rewrite Forall_forall in Hevs.
           by apply Hevs in Hin.
    + rewrite (subprocess_refused h c g i Hg) in Hin. done.
Qed.

(** ** Reading a returned result backwards *)

(** A result comes out of [await_result] only as the result of the
    pipeline, run with or without a deadline. *)
Lemma await_result_Done h c i st res st' :
  await_result h c i st = (Done res, st') →
  ∃ d st1,
    run_command_result h c i (with_deadline d st) = (Done res, st1)
    ∧ st_proc st' = st_proc st1 ∧ st_log st' = st_log st1
    ∧ (truthy (timeout i) = false → d = st_deadline st).
Proof.
  unfold await_result.
  assert (Hplain : run_command_result h c i st = (Done res, st') →
    ∃ d st1, run_command_result h c i (with_deadline d st) = (Done res, st1)
      ∧ st_proc st' = st_proc st1 ∧ st_log st' = st_log st1
      ∧ (truthy (timeout i) = false → d = st_deadline st)).
  { intros H. exists (st_deadline st), st'. by destruct st. }
  destruct (timeout i) as [delay|]; [|done].
  destruct (delay =? 0) eqn:Ez; [done|].
  unfold try_except.
  replace (if python_ge_3_11 h
           then asyncio_timeout c delay (run_command_result h c i)
           else asyncio_wait_for c (run_command_result h c i) delay)
    with (asyncio_timeout c delay (run_command_result h c i))
    by (by destruct (python_ge_3_11 h)).
  unfold asyncio_timeout. clear Hplain.
  destruct (run_command_result h c i _) as [r st1] eqn:Er.
  destruct r as [a|e|]; simpl.
  - intros [= <- <-]. exists (Some (awaits_before_deadline c delay)), st1.
    split; [exact Er|]. simpl. by rewrite Ez.
  - destruct e; simpl; unfold bind;
      try (intros [=]; fail);
      destruct (terminate_timed_out c _) as [[[]| |] ?]; intros [=].
  - intros [=].
Qed.

Lemma proc_wait_Done c st rc st' :
  proc_wait c st = (Done rc, st') →
  proc_returncode (st_proc st') = Some rc
  ∧ st_log st' = st_log st ++ [Wait rc]
  ∧ proc_stdin (st_proc st') = proc_stdin (st_proc st)
  ∧ (proc_returncode (st_proc st) = Some rc
     ∨ (proc_returncode (st_proc st) = None ∧ exit_status c = Some rc)).
Proof.
  unfold proc_wait, bind, get_proc, await, never, emit, set_proc, ret.
  destruct (proc_returncode (st_proc st)) as [rc0|] eqn:Erc.
  - destruct (st_deadline st) as [[|k]|]; intros [= <- <-]; simpl; auto.
  - destruct (exit_status c) as [rc0|].
    + destruct (st_deadline st) as [[|k]|]; intros [= <- <-]; simpl; auto 10.
    + destruct (st_deadline st); intros [=].
Qed.

Lemma decode_Done h b st t st' :
  decode h b st = (Done t, st') → bytes_decode h b = Some t ∧ st' = st.
Proof.
  unfold decode. destruct (bytes_decode h b); [|done]. by intros [= <- <-].
Qed.

Lemma collect_result_Done h c i st res st' :
  collect_result h c i st = (Done res, st') →
  ∃ out err st1,
    gather_read_streams c i st = (Done (out, err), st1)
    ∧ proc_wait c st1 = (Done (returncode res), st')
    ∧ success res = (returncode res =? 0)
    ∧ (if capture_output i
       then carries h i (stdout res) out ∧ carries h i (stderr res) err
       else stdout res = empty_payload i ∧ stderr res = empty_payload i).
Proof.
  unfold collect_result, bind at 1.
  destruct (gather_read_streams c i st) as [[[out err]| |] st1]; [|done..].
  unfold bind at 1.
  destruct (proc_wait c st1) as [[rc| |] st2] eqn:Ew; [|done..].
  unfold carries, empty_payload.
  destruct (text i).
  - destruct (capture_output i).
    + unfold bind at 1.
      destruct (decode h out st2) as [[t1| |] st3] eqn:E1; [|done..].
      apply decode_Done in E1 as [E1 ->].
      unfold bind at 1.
      destruct (decode h err st2) as [[t2| |] st4] eqn:E2; [|done..].
      apply decode_Done in E2 as [E2 ->].
      intros [= <- <-]. simpl. exists out, err, st1. eauto 10.
    + intros [= <- <-]. simpl. exists out, err, st1. eauto 10.
  - intros [= <- <-]. simpl. exists out, err, st1.
    by destruct (capture_output i).
Qed.

Lemma run_command_result_Done h c i st res st' :
  run_command_result h c i st = (Done res, st') →
  ∃ st1, write_stdin h c i st = (Done (), st1)
         ∧ collect_result h c i st1 = (Done res, st').
Proof.
  unfold run_command_result, bind.
  destruct (write_stdin h c i st) as [[[]| |] st1]; [|done..]. eauto.
Qed.

(** A returned result is the result of a pipeline run on the child that
    was started. *)
Lemma subprocess_Returned h c g i res :
  outcome (subprocess h c g i) = Returned res →
  ∃ log0 p0 d st',
    run_command_spawn h c i = (log0, inr p0)
    ∧ run_command_result h c i
        {| st_proc := p0; st_log := log0; st_deadline := d |} = (Done res, st')
    ∧ child_log (subprocess h c g i) = st_log st'
    ∧ child (subprocess h c g i) = Some (st_proc st')
    ∧ (truthy (timeout i) = false → d = None).
Proof.
  destruct (gate_admits g "subprocesses" (context_var_get h g)) eqn:Hg.
  - destruct (subprocess_admitted h c g i Hg) as (-> & -> & ->).
    unfold run_command_timeout.
    destruct (run_command_spawn h c i) as [log0 [e|p0]]; [done|].
    destruct (await_result h c i _) as [r st] eqn:Er. simpl.
    destruct r as [res'| |]; [|done..]. intros [= ->].
    apply await_result_Done in Er as (d & st1 & Hrun & Hp & Hl & Hd).
    exists log0, p0, d, st1. rewrite Hp, Hl. eauto.
  - by rewrite (subprocess_refused h c g i Hg).
Qed.

(** ** C5 *)

Lemma behaves_await_result_uncaptured h c i :
  behaves uncaptured (λ e, is_Read e = false)
    (λ e, e = UnicodeDecodeError ∨ (e = TimeoutError ∧ truthy (timeout i) = true))
    (await_result h c i).
Proof.
  apply behaves_await_result; try done.
  unfold run_command_result. apply behaves_bind.
  - by apply behaves_write_stdin.
  - intros _. apply behaves_collect_result; try done.
    apply behaves_gather_uncaptured.
Qed.

Lemma run_command_spawn_uncaptured h c i log p :
  capture_output i = false →
  run_command_spawn h c i = (log, inr p) → uncaptured p.
Proof.
  intros Hc. unfold run_command_spawn, create_subprocess, spawn_options.
  rewrite Hc.
  destruct (args i) as [cmd|[|program arguments]]; [|done|];
    destruct (cannot_start c); intros [= <- <-]; done.
Qed.

(** C5. With [capture_output=False] the child is started with stdout and
    stderr inherited, not piped; no read is ever made on either stream,
    whatever the child writes and however the call ends; and a result that
    is returned has both streams empty ([""] in text mode, [bytes()] in
    binary mode). *)
Theorem C5_uncaptured_output_is_empty h c g i :
  capture_output i = false →
  (∀ s n chunk, ¬ In (OnChild (Read s n chunk)) (events (subprocess h c g i)))
  ∧ (∀ e o, In (OnChild e) (events (subprocess h c g i)) →
            spawn_options_of e = Some o →
            opt_stdout o = Inherit ∧ opt_stderr o = Inherit)
  ∧ (∀ res, outcome (subprocess h c g i) = Returned res →
            stdout res = empty_payload i ∧ stderr res = empty_payload i).
Proof.
  intros Hc. split; [|split].
  - intros s n chunk Hin. apply child_log_In in Hin.
    destruct (gate_admits g "subprocesses" (context_var_get h g)) eqn:Hg.
    + destruct (subprocess_admitted h c g i Hg) as (Hlog & _ & _).
      rewrite Hlog in Hin. clear Hlog. unfold run_command_timeout in Hin.
      pose proof (run_command_spawn_log h c i (Read s n chunk)) as Hsp.
      pose proof (run_command_spawn_uncaptured h c i) as Hun.
      destruct (run_command_spawn h c i) as [log [e|p]]; simpl in *.
      * by specialize (Hsp Hin).
      * destruct (await_result h c i _) as [r st] eqn:Er. simpl in Hin.
        apply behaves_await_result_uncaptured in Er; [|by eapply Hun].
        destruct Er as (_ & (evs & Hl & Hevs) & _).
        simpl in Hl. rewrite Hl, in_app_iff in Hin. destruct Hin as [Hin|Hin].
        -- by specialize (Hsp Hin).
        -- apply list_elem_of_In in Hin. rewrite Forall_forall in Hevs.
           by apply Hevs in Hin.
    + rewrite (subprocess_refused h c g i Hg) in Hin. done.
  - intros e o Hin Ho.
    rewrite (child_log_spawn_events h c g i e o (child_log_In _ _ _ _ _ Hin) Ho).
    unfold spawn_options. simpl. by rewrite Hc.
  - intros res Hret.
    apply subprocess_Returned in Hret as (log0 & p0 & d & st' & _ & Hrun & _).
    apply run_command_result_Done in Hrun as (st1 & _ & Hcol).
    apply collect_result_Done in Hcol as (out & err & st2 & _ & _ & _ & Hp).
    by rewrite Hc in Hp.
Qed.

(** ** C2 *)

Lemma terminate_timed_out_runs c st :
  st_deadline st = None →
  ∃ p,
    terminate_timed_out c st
    = (Done (), {| st_proc := p;
                   st_log := st_log st ++ termination_events c (st_proc st);
                   st_deadline := None |})
    ∧ (terminate_raises c = false → is_Some (proc_returncode p)).
Proof.
  intros Hd. destruct st as [p log d]. simpl in Hd. subst d.
  unfold terminate_timed_out, termination_events, try_except, proc_terminate,
    asyncio_sleep, proc_kill, bind, emit, raise, get_proc, set_proc, await, ret.
  simpl.
  destruct (terminate_raises c); simpl.
  - eexists. split; [rewrite <- app_assoc; reflexivity|done].
  - destruct (proc_returncode p) as [rc|] eqn:Ep; simpl.
    + rewrite Ep. eexists. split; [by rewrite <- !app_assoc|].
      intros _. by rewrite Ep.
    + destruct (term_status c) as [rc|]; simpl.
      * eexists. split; [by rewrite <- !app_assoc|]. done.
      * eexists. split; [by rewrite <- !app_assoc|]. done.
Qed.



(** ** C6 *)




Lemma run_command_spawn_stdin h c i log p :
  run_command_spawn h c i = (log, inr p) →
  proc_stdin p = Some {| written := []; closed := false |}.
Proof.
  unfold run_command_spawn, create_subprocess.
  destruct (args i) as [cmd|[|program arguments]]; [|done|];
    destruct (cannot_start c); intros [= <- <-]; done.
Qed.



(** ** The readers under [gather] *)

(** What a completed turn of a reader did. *)
Lemma read_iter_Done c i s output st o d st' :
  read_iter c i s output st = (Done (o, d), st') →
  let pipe := default [] (get_stream s (st_proc st)) in
  (∃ chunk rest,
      take_chunk (Z.to_nat 8192) pipe = Some (chunk, rest)
      ∧ o = output ++ chunk
      ∧ d = exceeds (output_limit i) o
      ∧ st_log st' = st_log st ++ Read s 8192 chunk :: (if d then [Kill] else [])
      ∧ st_proc st' = (if d then killed c else id) (set_stream s rest (st_proc st)))
  ∨ (take_chunk (Z.to_nat 8192) pipe = None
     ∧ o = output ∧ d = true
     ∧ st_log st' = st_log st ++ [Read s 8192 []]
     ∧ st_proc st' = st_proc st
     ∧ will_close c (st_proc st) = true).
Proof.
  unfold read_iter, stream_read, proc_kill, killed, bind, get_proc, set_proc,
    emit, await, ret.
  destruct (take_chunk _ _) as [[chunk rest]|] eqn:E; simpl.
  - destruct (take_chunk_Some _ _ _ _ chunk_size_pos E) as (Hne & _ & _).
    assert (Hd : ∀ d0 : option nat, ∃ log1 (ok : bool),
      (match d0 with
       | None => (Done (), st)
       | Some O => (Raised CancelledError, st)
       | Some (S k) => (Done (), {| st_proc := st_proc st; st_log := st_log st;
                                    st_deadline := Some k |})
       end) = (if ok then Done () else Raised CancelledError, log1)
      ∧ st_proc log1 = st_proc st ∧ st_log log1 = st_log st).
    { intros [[|k]|]; [by exists st, false|by eexists _, true..]. }
    destruct (Hd (st_deadline st)) as (st1 & ok & -> & Hp1 & Hl1).
    destruct ok; [|done]. simpl.
    destruct chunk as [|b chunk]; [done|].
    destruct (exceeds (output_limit i) (output ++ b :: chunk)) eqn:Ex; simpl.
    + destruct (proc_returncode (set_stream s rest (st_proc st))) eqn:Erc;
        intros [= <- <- <-]; left; exists (b :: chunk), rest; simpl;
        rewrite Ex, Hl1, Erc, <- ?app_assoc; done.
    + intros [= <- <- <-]. left. exists (b :: chunk), rest. simpl.
      rewrite Ex, Hl1. done.
  - destruct (will_close c (st_proc st)) eqn:Ew.
    + destruct (st_deadline st) as [[|k]|]; simpl; [done|..];
        intros [= <- <- <-]; right; done.
    + destruct (st_deadline st) as [[|k]|]; done.
Qed.

Lemma reads_of_app s a b : reads_of s (a ++ b) = reads_of s a ++ reads_of s b.
Proof. apply omap_app. Qed.

Lemma has_kill_app a b : has_kill (a ++ b) = has_kill a || has_kill b.
Proof. apply existsb_app. Qed.

Lemma get_stream_set_stream s s' v p :
  get_stream s' (set_stream s v p) = if decide (s = s') then Some v else get_stream s' p.
Proof. by destruct s, s'. Qed.

Lemma get_stream_killed c s p : get_stream s (killed c p) = get_stream s p.
Proof. unfold killed. by destruct (proc_returncode p), s. Qed.

Lemma proc_stdin_killed c p : proc_stdin (killed c p) = proc_stdin p.
Proof. unfold killed. by destruct (proc_returncode p). Qed.

Lemma proc_returncode_killed c p :
  proc_returncode (killed c p)
  = Some (default (kill_status c) (proc_returncode p)).
Proof. unfold killed. by destruct (proc_returncode p) eqn:E. Qed.

Lemma proc_returncode_set_stream s v p :
  proc_returncode (set_stream s v p) = proc_returncode p.
Proof. by destruct s. Qed.

(** A turn of the reader of [s] leaves what holds of the other reader. *)
Lemma reader_inv_other limit s s' pipe0 cur evs r n chunk (k : bool) :
  s ≠ s' →
  reader_inv limit s' pipe0 cur evs r →
  reader_inv limit s' pipe0 cur (evs ++ Read s n chunk :: (if k then [Kill] else [])) r.
Proof.
  intros Hne [Hreads Hr]. split.
  - rewrite reads_of_app. cbn [reads_of omap list_omap].
    destruct (decide (s = s')); [done|].
    replace (omap _ (if k then [Kill] else [])) with (@nil (list byte))
      by (by destruct k).
    by rewrite app_nil_r.
  - destruct pipe0 as [q0|], cur as [q|]; try done.
    destruct (rd_done r); [|done].
    destruct Hr as (k0 & Ha & Hk). exists k0. split; [done|].
    destruct k0.
    + by rewrite has_kill_app, Hk.
    + apply in_app_iff. by left.
Qed.

(** A turn of the reader of [s] that reads a chunk. *)
Lemma reader_inv_chunk limit s q0 q evs output chunk rest :
  reader_inv limit s (Some q0) (Some q) evs {| rd_output := output; rd_done := false |} →
  take_chunk (Z.to_nat 8192) q = Some (chunk, rest) →
  let d := exceeds limit (output ++ chunk) in
  reader_inv limit s (Some q0) (Some rest)
    (evs ++ Read s 8192 chunk :: (if d then [Kill] else []))
    {| rd_output := output ++ chunk; rd_done := d |}.
Proof.
  intros [Hreads Hr] E d. simpl in *. split.
  - rewrite reads_of_app. cbn [reads_of omap list_omap].
    destruct (decide (s = s)); [|done].
    replace (omap _ (if d then [Kill] else [])) with (@nil (list byte))
      by (by destruct d).
    rewrite concat_app. simpl. by rewrite Hreads, !app_nil_r.
  - cbn [rd_done rd_output].
    rewrite (read_stream_loop_step _ _ _ _ _ E) in Hr. fold d in Hr.
    destruct d.
    + exists true. split; [done|].
      rewrite has_kill_app. simpl. by rewrite orb_true_r.
    + done.
Qed.

(** A turn of the reader of [s] that finds the end of the stream. *)
Lemma reader_inv_eof limit s q0 q evs output :
  reader_inv limit s (Some q0) (Some q) evs {| rd_output := output; rd_done := false |} →
  take_chunk (Z.to_nat 8192) q = None →
  reader_inv limit s (Some q0) (Some q) (evs ++ [Read s 8192 []])
    {| rd_output := output; rd_done := true |}.
Proof.
  intros [Hreads Hr] E. simpl in *. split.
  - rewrite reads_of_app. cbn [reads_of omap list_omap].
    destruct (decide (s = s)); [|done].
    rewrite concat_app. simpl. by rewrite Hreads, !app_nil_r.
  - cbn [rd_done rd_output].
    rewrite (read_stream_loop_end _ _ _ E) in Hr.
    exists false. split; [done|]. apply in_app_iff. right. by left.
Qed.

Lemma existsb_is_Kill_read s n chunk (k : bool) :
  has_kill (Read s n chunk :: (if k then [Kill] else [])) = k.
Proof. by destruct k. Qed.

(** A completed turn of a reader keeps the invariant of the gathering. *)
Lemma gather_inv_step c i p0 log0 st evs out err s o d st' :
  gather_inv c (output_limit i) p0 log0 st evs out err →
  rd_done (reader_of s out err) = false →
  read_iter c i s (rd_output (reader_of s out err)) st = (Done (o, d), st') →
  ∃ evs',
    gather_inv c (output_limit i) p0 log0 st' evs'
      (with_reader s {| rd_output := o; rd_done := d |} out err).1
      (with_reader s {| rd_output := o; rd_done := d |} out err).2.
Proof.
  intros [Hlog Hout Herr Hin Hrc] Hnd Hit.
  apply read_iter_Done in Hit.
  assert (Hcur : ∃ q0 q,
    get_stream s p0 = Some q0 ∧ get_stream s (st_proc st) = Some q
    ∧ reader_inv (output_limit i) s (Some q0) (Some q) evs
        {| rd_output := rd_output (reader_of s out err); rd_done := false |}).
  { destruct s; simpl in *.
    - destruct out as [oo od]; simpl in *; subst od.
      destruct (proc_stdout p0) as [q0|], (proc_stdout (st_proc st)) as [q|];
        try (by destruct Hout as [_ []]). eauto.
    - destruct err as [oo od]; simpl in *; subst od.
      destruct (proc_stderr p0) as [q0|], (proc_stderr (st_proc st)) as [q|];
        try (by destruct Herr as [_ []]). eauto. }
  destruct Hcur as (q0 & q & Hq0 & Hq & Hinv).
  rewrite Hq in Hit. simpl in Hit.
  destruct Hit as [(chunk & rest & E & -> & Hd & Hl & Hp)|(E & -> & -> & Hl & Hp & _)].
  - pose proof (reader_inv_chunk _ _ _ _ _ _ _ _ Hinv E) as Hself.
    simpl in Hself. rewrite <- Hd in Hself.
    exists (evs ++ Read s 8192 chunk :: (if d then [Kill] else [])).
    assert (Hrc' : proc_returncode (st_proc st')
              = if has_kill (evs ++ Read s 8192 chunk :: (if d then [Kill] else []))
                then Some (kill_status c) else None).
    { rewrite has_kill_app, existsb_is_Kill_read, Hp.
      destruct d; simpl.
      - rewrite orb_true_r, proc_returncode_killed, proc_returncode_set_stream, Hrc.
        by destruct (has_kill evs).
      - by rewrite orb_false_r, proc_returncode_set_stream. }
    assert (Hin' : proc_stdin (st_proc st') = proc_stdin p0).
    { rewrite Hp, <- Hin. destruct d; simpl; rewrite ?proc_stdin_killed;
        by destruct s. }
    assert (Hs : ∀ s', get_stream s' (st_proc st')
                       = if decide (s = s') then Some rest
                         else get_stream s' (st_proc st)).
    { intros s'. rewrite Hp.
      destruct d; simpl; rewrite ?get_stream_killed; apply get_stream_set_stream. }
    destruct s; simpl in *.
    + constructor; try done.
      * by rewrite Hl, Hlog, <- app_assoc.
      * rewrite Hq0. specialize (Hs Stdout). simpl in Hs. by rewrite Hs.
      * specialize (Hs Stderr). simpl in Hs. rewrite Hs.
        by apply reader_inv_other.
    + constructor; try done.
      * by rewrite Hl, Hlog, <- app_assoc.
      * specialize (Hs Stdout). simpl in Hs. rewrite Hs.
        by apply reader_inv_other.
      * rewrite Hq0. specialize (Hs Stderr). simpl in Hs. by rewrite Hs.
  - pose proof (reader_inv_eof _ _ _ _ _ _ Hinv E) as Hself.
    exists (evs ++ [Read s 8192 []]).
    assert (Hrc' : proc_returncode (st_proc st')
              = if has_kill (evs ++ [Read s 8192 []])
                then Some (kill_status c) else None).
    { rewrite has_kill_app, Hp. simpl. by rewrite orb_false_r. }
    destruct s; simpl in *.
    + constructor; try done.
      * by rewrite Hl, Hlog, <- app_assoc.
      * by rewrite Hp, Hq0, Hq.
      * rewrite Hp. by apply (reader_inv_other _ Stdout Stderr _ _ _ _ _ _ false).
      * by rewrite Hp.
    + constructor; try done.
      * by rewrite Hl, Hlog, <- app_assoc.
      * rewrite Hp. by apply (reader_inv_other _ Stderr Stdout _ _ _ _ _ _ false).
      * by rewrite Hp, Hq0, Hq.
      * by rewrite Hp.
Qed.

Lemma pick_Some sched ok s : pick sched ok = Some s → ok s = true.
Proof. unfold pick. intros H. by apply find_some in H as [_ ?]. Qed.

Lemma pick_None sched ok : pick sched ok = None → ok Stdout = false ∧ ok Stderr = false.
Proof.
  unfold pick. intros H.
  pose proof (find_none _ _ H) as Hn.
  split; apply not_true_is_false; intros Ht.
  - specialize (Hn Stdout). rewrite Ht in Hn.
    assert (true = false); [|done].
    apply Hn, in_app_iff. right. by left.
  - specialize (Hn Stderr). rewrite Ht in Hn.
    assert (true = false); [|done].
    apply Hn, in_app_iff. right. right. by left.
Qed.

Lemma can_proceed_not_done c p out err s :
  can_proceed c p out err s = true → rd_done (reader_of s out err) = false.
Proof.
  unfold can_proceed, reader_of. intros H%andb_prop. destruct H as [H _].
  destruct s; by apply negb_true_iff in H.
Qed.

(** When the gathering returns, both readers are done and the invariant
    holds of what they return. *)
Lemma gather_from_sound c i p0 log0 : ∀ fuel sched out err st evs o e st',
  gather_inv c (output_limit i) p0 log0 st evs out err →
  gather_from c i fuel sched out err st = (Done (o, e), st') →
  ∃ evs' out' err',
    gather_inv c (output_limit i) p0 log0 st' evs' out' err'
    ∧ rd_done out' = true ∧ rd_done err' = true
    ∧ rd_output out' = o ∧ rd_output err' = e.
Proof.
  induction fuel as [|fuel IH]; intros sched out err st evs o e st' Hinv; simpl.
  - destruct (rd_done out) eqn:Eo, (rd_done err) eqn:Ee; simpl;
      try (unfold never; destruct (st_deadline st); done).
    intros [= <- <- <-]. by exists evs, out, err.
  - destruct (rd_done out && rd_done err) eqn:Edone.
    + apply andb_prop in Edone as [Eo Ee].
      intros [= <- <- <-]. by exists evs, out, err.
    + unfold bind at 1. unfold get_proc.
      destruct (pick sched _) as [s|] eqn:Epick;
        [|unfold never; destruct (st_deadline st); done].
      apply pick_Some, can_proceed_not_done in Epick.
      destruct s; simpl in Epick; unfold bind;
        destruct (read_iter c i _ _ st) as [[[o1 d1]| |] st1] eqn:Eit; try done;
        intros Hg.
      * destruct (gather_inv_step c i p0 log0 st evs out err Stdout o1 d1 st1
                    Hinv Epick Eit) as (evs1 & Hinv1).
        by eapply IH.
      * destruct (gather_inv_step c i p0 log0 st evs out err Stderr o1 d1 st1
                    Hinv Epick Eit) as (evs1 & Hinv1).
        by eapply IH.
Qed.

Lemma gather_inv_start c limit st :
  proc_returncode (st_proc st) = None →
  gather_inv c limit (st_proc st) (st_log st) st []
    (read_stream_start Stdout (st_proc st)) (read_stream_start Stderr (st_proc st)).
Proof.
  intros Hrc. constructor; try done.
  - by rewrite app_nil_r.
  - unfold read_stream_start. simpl. by destruct (proc_stdout (st_proc st)).
  - unfold read_stream_start. simpl. by destruct (proc_stderr (st_proc st)).
Qed.

(** What a finished reader returned. *)
Lemma reader_inv_done limit s pipe0 cur evs r :
  reader_inv limit s pipe0 cur evs r →
  rd_done r = true →
  concat (reads_of s evs) = rd_output r
  ∧ ∃ k, read_stream_alone limit pipe0 = (rd_output r, k)
         ∧ (k = true → has_kill evs = true)
         ∧ (k = false → is_Some pipe0 → In (Read s 8192 []) evs).
Proof.
  intros [Hreads Hr] Hd. split; [done|].
  destruct pipe0 as [q0|], cur as [q|]; try done.
  - rewrite Hd in Hr. destruct Hr as (k & Ha & Hk). exists k.
    split; [done|]. by destruct k.
  - destruct Hr as [_ ->]. exists false. split; [done|]. split; [done|].
    by intros _ [].
Qed.

(** The gathering returns what each reader returns on its own, however the
    two were interleaved, and logs every chunk it returns. *)
Lemma gather_read_streams_sound c i st o e st' :
  proc_returncode (st_proc st) = None →
  gather_read_streams c i st = (Done (o, e), st') →
  ∃ evs ko ke,
    st_log st' = st_log st ++ evs
    ∧ read_stream_alone (output_limit i) (proc_stdout (st_proc st)) = (o, ko)
    ∧ read_stream_alone (output_limit i) (proc_stderr (st_proc st)) = (e, ke)
    ∧ concat (reads_of Stdout evs) = o
    ∧ concat (reads_of Stderr evs) = e
    ∧ (ko = false → is_Some (proc_stdout (st_proc st)) → In (Read Stdout 8192 []) evs)
    ∧ (ke = false → is_Some (proc_stderr (st_proc st)) → In (Read Stderr 8192 []) evs)
    ∧ (ko || ke = true → has_kill evs = true)
    ∧ proc_returncode (st_proc st')
      = (if has_kill evs then Some (kill_status c) else None)
    ∧ proc_stdin (st_proc st') = proc_stdin (st_proc st).
Proof.
  intros Hrc. unfold gather_read_streams, bind, get_proc. intros Hg.
  destruct (gather_from_sound c i _ _ _ _ _ _ _ _ _ _ _
              (gather_inv_start c (output_limit i) st Hrc) Hg)
    as (evs & out & err & [Hlog Hout Herr Hin Hrc'] & Hdo & Hde & <- & <-).
  destruct (reader_inv_done _ _ _ _ _ _ Hout Hdo) as (Hro & ko & Hao & Hko & Heo).
  destruct (reader_inv_done _ _ _ _ _ _ Herr Hde) as (Hre & ke & Hae & Hke & Hee).
  exists evs, ko, ke. repeat (split; [done|]). split; [|done].
  intros [->| ->]%orb_prop; auto.
Qed.

(** ** The anatomy of a returned result *)

Lemma run_command_spawn_proc h c i log p :
  run_command_spawn h c i = (log, inr p) →
  proc_returncode p = None
  ∧ (∀ s, get_stream s p = pipe_of c i s)
  ∧ Forall quiet_event log.
Proof.
  unfold run_command_spawn, create_subprocess, pipe_of, spawn_options.
  destruct (args i) as [cmd|[|program arguments]]; [|done|];
    destruct (cannot_start c); intros [= <- <-];
    (split; [done|split; [|by repeat constructor]]);
    intros []; simpl; by destruct (capture_output i).
Qed.

Lemma write_stdin_quiet h c i st r st' :
  write_stdin h c i st = (r, st') →
  proc_returncode (st_proc st') = proc_returncode (st_proc st)
  ∧ (∀ s, get_stream s (st_proc st') = get_stream s (st_proc st))
  ∧ ∃ evs, st_log st' = st_log st ++ evs ∧ Forall quiet_event evs.
Proof.
  intros H.
  apply (behaves_write_stdin
           (λ p, proc_returncode p = proc_returncode (st_proc st)
                 ∧ ∀ s, get_stream s p = get_stream s (st_proc st))
           quiet_event (λ _, False)) in H; try done.
  by destruct H as ((? & ?) & ? & _).
Qed.

Lemma reads_of_quiet s l : Forall quiet_event l → reads_of s l = [].
Proof.
  induction 1 as [|e l [He _] _ IH]; [done|].
  cbn [reads_of omap list_omap]. fold (reads_of s l). rewrite IH.
  by destruct e.
Qed.

Lemma has_kill_quiet l : Forall quiet_event l → has_kill l = false.
Proof.
  induction 1 as [|e l [_ He] _ IH]; [done|].
  unfold has_kill in *. simpl. by rewrite He, IH.
Qed.

Lemma has_kill_In l : has_kill l = true ↔ In Kill l.
Proof.
  unfold has_kill. rewrite existsb_exists. split.
  - intros (e & Hin & He). by destruct e.
  - intros Hin. by exists Kill.
Qed.

(** Everything that is known of a run that returned a result: the log is
    the spawn, the calls on the standard input, the reads and kills of the
    two readers and the wait; each reader returned what it returns on its
    own; the status is the child's own, or the one of a killed child when
    a reader killed it. *)
Lemma subprocess_Returned_anatomy h c g i res :
  outcome (subprocess h c g i) = Returned res →
  ∃ pre evs out err ko ke p,
    child_log (subprocess h c g i) = pre ++ evs ++ [Wait (returncode res)]
    ∧ Forall quiet_event pre
    ∧ read_stream_alone (output_limit i) (pipe_of c i Stdout) = (out, ko)
    ∧ read_stream_alone (output_limit i) (pipe_of c i Stderr) = (err, ke)
    ∧ concat (reads_of Stdout evs) = out
    ∧ concat (reads_of Stderr evs) = err
    ∧ (ko = false → capture_output i = true → In (Read Stdout 8192 []) evs)
    ∧ (ke = false → capture_output i = true → In (Read Stderr 8192 []) evs)
    ∧ (ko || ke = true → has_kill evs = true)
    ∧ (if capture_output i
       then carries h i (stdout res) out ∧ carries h i (stderr res) err
       else stdout res = empty_payload i ∧ stderr res = empty_payload i)
    ∧ success res = (returncode res =? 0)
    ∧ child (subprocess h c g i) = Some p
    ∧ proc_returncode p = Some (returncode res)
    ∧ (if has_kill evs then returncode res = kill_status c
       else exit_status c = Some (returncode res)).
Proof.
  intros Hret.
  apply subprocess_Returned in Hret
    as (log0 & p0 & d & st' & Hsp & Hrun & -> & -> & _).
  apply run_command_spawn_proc in Hsp as (Hrc0 & Hs0 & Hq0).
  apply run_command_result_Done in Hrun as (st1 & Hw & Hcol).
  apply write_stdin_quiet in Hw as (Hrc1 & Hs1 & evs1 & Hl1 & Hq1).
  simpl in Hrc1, Hs1, Hl1.
  apply collect_result_Done in Hcol as (out & err & st2 & Hg & Hwait & Hsucc & Hpay).
  apply gather_read_streams_sound in Hg; [|by rewrite Hrc1].
  destruct Hg as (evs & ko & ke & Hl2 & Hao & Hae & Hro & Hre & Heo & Hee & Hk & Hrc2 & _).
  apply proc_wait_Done in Hwait as (Hrc3 & Hl3 & _ & Hst).
  pose proof (Hs1 Stdout) as Ho. pose proof (Hs1 Stderr) as He.
  rewrite Hs0 in Ho, He. simpl in Ho, He. rewrite Ho in Hao, Heo. rewrite He in Hae, Hee.
  exists (log0 ++ evs1), evs, out, err, ko, ke, (st_proc st').
  split; [by rewrite Hl3, Hl2, Hl1, <- !app_assoc|].
  split; [by apply Forall_app|].
  do 4 (split; [done|]).
  split; [intros ? Hc; apply Heo; [done|]; unfold pipe_of; by rewrite Hc|].
  split; [intros ? Hc; apply Hee; [done|]; unfold pipe_of; by rewrite Hc|].
  do 5 (split; [done|]).
  rewrite Hrc2 in Hst. destruct (has_kill evs).
  - by destruct Hst as [[= ->]|[? _]].
  - by destruct Hst as [|[_ ?]].
Qed.

(** ** C3 *)

Lemma read_stream_alone_limit L data bytes k :
  0 ≤ L →
  read_stream_alone (Some L) (Some data) = (bytes, k) →
  Z.of_nat (length bytes) ≤ L + 8192
  ∧ (∃ more, concat data = bytes ++ more)
  ∧ (k = true ↔ L < Z.of_nat (length bytes))
  ∧ (k = false → bytes = concat data).
Proof.
  intros HL Ha. unfold read_stream_alone in Ha.
  pose proof (read_stream_loop_bound L data [] (or_introl eq_refl)) as [Hb Hk].
  pose proof (read_stream_loop_result (Some L) data []) as (Hpre & Hfull & Hex).
  rewrite Ha in Hb, Hk, Hpre, Hfull, Hex. simpl in *.
  split; [lia|]. split; [done|]. split; [|done].
  split.
  - intros Hkt. specialize (Hex Hkt). lia.
  - intros Hlt. destruct k; [done|].
    destruct (Hk eq_refl) as [->|Hx]; simpl in *; lia.
Qed.

(** C3, for a non-negative limit. With capture enabled and [output_limit]
    set to a non-negative [L], a result that is returned carries for each
    stream exactly the bytes that were read from it, a prefix of what the
    child sent, and never more than [L + 8192] of them. When they are more
    than [L] the reader killed the child, which is not running afterwards,
    and read no further; when they are not, they are all the child sent and
    the stream was read to its end. *)
Theorem C3_output_limit_bounds_retained_output h c g i L res s :
  capture_output i = true →
  output_limit i = Some L →
  0 ≤ L →
  outcome (subprocess h c g i) = Returned res →
  ∃ bytes,
    carries h i (payload_of s res) bytes
    ∧ bytes = (read_stream_alone (Some L) (Some (data_of c s))).1
    ∧ concat (reads_of s (child_log (subprocess h c g i))) = bytes
    ∧ (∃ more, concat (data_of c s) = bytes ++ more)
    ∧ Z.of_nat (length bytes) ≤ L + 8192
    ∧ (L < Z.of_nat (length bytes) →
       In Kill (child_log (subprocess h c g i))
       ∧ ∃ p rc, child (subprocess h c g i) = Some p ∧ proc_returncode p = Some rc)
    ∧ (Z.of_nat (length bytes) ≤ L →
       bytes = concat (data_of c s)
       ∧ In (Read s 8192 []) (child_log (subprocess h c g i))).
Proof.
  intros Hc HL Hpos Hret.
  destruct (subprocess_Returned_anatomy h c g i res Hret)
    as (pre & evs & out & err & ko & ke & p & -> & Hpre & Hao & Hae & Hro & Hre
        & Heo & Hee & Hk & Hpay & _ & Hp & Hrc & _).
  rewrite Hc in Hpay. destruct Hpay as [Hpo Hpe].
  unfold pipe_of in Hao, Hae. rewrite Hc, HL in Hao, Hae.
  assert (Hreads : ∀ s', concat (reads_of s' (pre ++ evs ++ [Wait (returncode res)]))
                         = concat (reads_of s' evs)).
  { intros s'. rewrite !reads_of_app, (reads_of_quiet _ _ Hpre). simpl.
    by rewrite app_nil_r. }
  assert (Hkill : has_kill evs = true →
            In Kill (pre ++ evs ++ [Wait (returncode res)])).
  { intros Hh. apply has_kill_In in Hh. rewrite !in_app_iff. auto. }
  assert (Heof : ∀ s', In (Read s' 8192 []) evs →
            In (Read s' 8192 []) (pre ++ evs ++ [Wait (returncode res)])).
  { intros s' Hin. rewrite !in_app_iff. auto. }
  destruct s; cbn [payload_of].
  - destruct (read_stream_alone_limit L _ _ _ Hpos Hao) as (Hb & Hpref & Hkt & Hkf).
    exists out. rewrite Hao, Hreads. repeat (split; [done|]). split.
    + intros Hlt. apply Hkt in Hlt. subst ko. split; [|eauto].
      apply Hkill, Hk. done.
    + intros Hle. assert (ko = false) as ->.
      { destruct ko; [|done]. destruct Hkt as [Hkt _]. specialize (Hkt eq_refl). lia. }
      split; [by apply Hkf|]. apply Heof. by apply Heo.
  - destruct (read_stream_alone_limit L _ _ _ Hpos Hae) as (Hb & Hpref & Hkt & Hkf).
    exists err. rewrite Hae, Hreads. repeat (split; [done|]). split.
    + intros Hlt. apply Hkt in Hlt. subst ke. split; [|eauto].
      apply Hkill, Hk. by rewrite orb_true_r.
    + intros Hle. assert (ke = false) as ->.
      { destruct ke; [|done]. destruct Hkt as [Hkt _]. specialize (Hkt eq_refl). lia. }
      split; [by apply Hkf|]. apply Heof. by apply Hee.
Qed.

(** C3 does not hold for a negative limit: with [output_limit=-1] the
    first chunk is over the limit as soon as it is read, and its 8192 bytes
    are retained, more than [-1 + 8192]. *)
Lemma C3_counterexample :
  ∃ res b,
    capture_output (limited_call (-1)) = true
    ∧ output_limit (limited_call (-1)) = Some (-1)
    ∧ outcome (subprocess example_host flood_child example_globals
                 (limited_call (-1))) = Returned res
    ∧ stdout res = Binary b
    ∧ ¬ (Z.of_nat (length b) ≤ -1 + 8192).
Proof.
  eexists _, _. split; [reflexivity|]. split; [reflexivity|].
  split; [vm_compute; reflexivity|]. split; [reflexivity|].
  vm_compute. intros H. by apply H.
Qed.

(** ** Progress of the readers *)

(** A reader that can proceed, with time left, completes its turn; the
    turn takes one suspension point. *)
Lemma read_iter_total c i s out err st :
  can_proceed c (st_proc st) out err s = true →
  time_for 1 (st_deadline st) →
  ∃ o d st',
    read_iter c i s (rd_output (reader_of s out err)) st = (Done (o, d), st')
    ∧ st_deadline st' = Nat.pred <$> st_deadline st.
Proof.
  unfold can_proceed. intros [_ Hready]%andb_prop Htime.
  destruct st as [p log dl]. simpl in *.
  unfold read_iter, stream_read, proc_kill, bind, get_proc, set_proc,
    emit, await, ret. simpl.
  destruct (take_chunk _ _) as [[chunk rest]|] eqn:E; simpl.
  - destruct (take_chunk_Some _ _ _ _ chunk_size_pos E) as (Hne & _ & _).
    destruct chunk as [|b chunk]; [done|].
    destruct dl as [[|k]|]; simpl in *; [lia|..];
      destruct (exceeds _ _); simpl;
      try destruct (proc_returncode _); eauto.
  - simpl in Hready. rewrite Hready.
    destruct dl as [[|k]|]; simpl in *; [lia|..]; eauto.
Qed.

Lemma will_close_killed c p : will_close c (killed c p) = true.
Proof.
  unfold will_close. rewrite proc_returncode_killed.
  by rewrite (bool_decide_eq_true_2 _ (mk_is_Some _ _ eq_refl)).
Qed.

Lemma will_close_set_stream c s v p :
  will_close c (set_stream s v p) = will_close c p.
Proof. unfold will_close. by rewrite proc_returncode_set_stream. Qed.

(** A turn uses up a turn. *)
Lemma turns_left_step c i s out err st o d st' :
  rd_done (reader_of s out err) = false →
  read_iter c i s (rd_output (reader_of s out err)) st = (Done (o, d), st') →
  (turns_left (st_proc st')
     (with_reader s {| rd_output := o; rd_done := d |} out err).1
     (with_reader s {| rd_output := o; rd_done := d |} out err).2
   < turns_left (st_proc st) out err)%nat.
Proof.
  intros Hnd Hit. apply read_iter_Done in Hit.
  destruct Hit as [(chunk & rest & E & -> & Hd & _ & Hp)|(E & -> & -> & _ & Hp & _)].
  - destruct (take_chunk_bytes _ _ _ _ chunk_size_pos E) as [Hb Hpos].
    assert (Hs : ∀ s', get_stream s' (st_proc st')
                       = if decide (s = s') then Some rest
                         else get_stream s' (st_proc st)).
    { intros s'. rewrite Hp.
      destruct d; simpl; rewrite ?get_stream_killed; apply get_stream_set_stream. }
    pose proof (Hs Stdout) as Ho. pose proof (Hs Stderr) as He. simpl in Ho, He.
    unfold turns_left, reader_turns.
    destruct s; simpl in *; rewrite Ho, He, Hnd; simpl; destruct d; lia.
  - unfold turns_left, reader_turns. rewrite Hp.
    destruct s; simpl in *; rewrite Hnd; simpl; lia.
Qed.

(** A turn leaves the readers able to proceed. *)
Lemma will_proceed_step c i s out err st o d st' :
  will_proceed c (output_limit i) (st_proc st) out err →
  rd_done (reader_of s out err) = false →
  read_iter c i s (rd_output (reader_of s out err)) st = (Done (o, d), st') →
  will_proceed c (output_limit i) (st_proc st')
    (with_reader s {| rd_output := o; rd_done := d |} out err).1
    (with_reader s {| rd_output := o; rd_done := d |} out err).2.
Proof.
  intros Hwp Hnd Hit. apply read_iter_Done in Hit.
  destruct Hit as [(chunk & rest & E & -> & Hd & _ & Hp)|(E & -> & -> & _ & Hp & Hw)];
    [|left; by rewrite Hp].
  destruct d.
  { left. rewrite Hp. apply will_close_killed. }
  simpl in Hp.
  destruct Hwp as [Hw|[s' [Hnd' Hov]]].
  { left. by rewrite Hp, will_close_set_stream. }
  right. exists s'. unfold will_overflow.
  rewrite Hp, get_stream_set_stream.
  destruct (decide (s = s')) as [<-|Hne].
  - replace (reader_of s (with_reader s _ out err).1 (with_reader s _ out err).2)
      with {| rd_output := rd_output (reader_of s out err) ++ chunk; rd_done := false |}
      by (by destruct s).
    simpl. split; [done|].
    rewrite (read_stream_loop_step _ _ _ _ _ E), <- Hd in Hov. done.
  - replace (reader_of s' (with_reader s _ out err).1 (with_reader s _ out err).2)
      with (reader_of s' out err) by (by destruct s, s').
    done.
Qed.

(** The fuel of the gathering never runs out: any amount that covers the
    turns left gives the same run. *)
Lemma gather_from_fuel c i : ∀ fuel fuel' sched out err st,
  (turns_left (st_proc st) out err ≤ fuel)%nat →
  (turns_left (st_proc st) out err ≤ fuel')%nat →
  gather_from c i fuel sched out err st = gather_from c i fuel' sched out err st.
Proof.
  assert (Hzero : ∀ fuel sched out err st,
            turns_left (st_proc st) out err = O →
            gather_from c i fuel sched out err st
            = (Done (rd_output out, rd_output err), st)).
  { intros fuel sched out err st Hz. unfold turns_left, reader_turns in Hz.
    destruct (rd_done out) eqn:Eo, (rd_done err) eqn:Ee; try (simpl in Hz; lia).
    destruct fuel; simpl; by rewrite Eo, Ee. }
  induction fuel as [|fuel IH]; intros fuel' sched out err st H H'.
  { rewrite !Hzero by lia. done. }
  destruct fuel' as [|fuel'].
  { rewrite !Hzero by lia. done. }
  simpl. destruct (rd_done out && rd_done err); [reflexivity|].
  assert (Hget : ∀ A (k : Process → Task A) st,
            (let* p := get_proc in k p) st = k (st_proc st) st) by done.
  rewrite !Hget.
  destruct (pick sched _) as [s|] eqn:Epick; [|done].
  apply pick_Some, can_proceed_not_done in Epick.
  destruct s; simpl in Epick; unfold bind;
    destruct (read_iter c i _ _ st) as [[[o d]| |] st1] eqn:Eit; try done.
  - pose proof (turns_left_step c i Stdout out err st o d st1 Epick Eit) as Hlt.
    simpl in Hlt. apply IH; lia.
  - pose proof (turns_left_step c i Stderr out err st o d st1 Epick Eit) as Hlt.
    simpl in Hlt. apply IH; lia.
Qed.

Lemma gather_fuel_covers p :
  (turns_left p (read_stream_start Stdout p) (read_stream_start Stderr p)
   ≤ gather_fuel p)%nat.
Proof.
  unfold turns_left, reader_turns, read_stream_start, gather_fuel. simpl.
  destruct (proc_stdout p), (proc_stderr p); simpl; lia.
Qed.

(** So the gathering of the two readers is the same with any more fuel. *)
Lemma gather_read_streams_fuel c i k st :
  gather_read_streams c i st
  = gather_from c i (gather_fuel (st_proc st) + k) (schedule c)
      (read_stream_start Stdout (st_proc st))
      (read_stream_start Stderr (st_proc st)) st.
Proof.
  pose proof (gather_fuel_covers (st_proc st)) as Hc.
  change (gather_read_streams c i st)
    with (gather_from c i (gather_fuel (st_proc st)) (schedule c)
            (read_stream_start Stdout (st_proc st))
            (read_stream_start Stderr (st_proc st)) st).
  apply gather_from_fuel; lia.
Qed.

Lemma will_overflow_can_proceed c limit p out err s :
  will_overflow limit p out err s → can_proceed c p out err s = true.
Proof.
  intros [Hnd Hov]. unfold can_proceed.
  replace (match s with Stdout => out | Stderr => err end)
    with (reader_of s out err) by done.
  rewrite Hnd. simpl.
  destruct (take_chunk _ _) as [cr|] eqn:E.
  - by rewrite (bool_decide_eq_true_2 _ (mk_is_Some _ _ eq_refl)).
  - by rewrite (read_stream_loop_end _ _ _ E) in Hov.
Qed.

Lemma will_proceed_pick c limit p out err sched :
  will_proceed c limit p out err →
  rd_done out && rd_done err = false →
  ∃ s, pick sched (can_proceed c p out err) = Some s.
Proof.
  intros Hwp Hnd.
  destruct (pick sched _) as [s|] eqn:E; [eauto|].
  apply pick_None in E as [Eo Ee]. exfalso.
  destruct Hwp as [Hw|[s Hov]].
  - unfold can_proceed in Eo, Ee. rewrite Hw, !orb_true_r, !andb_true_r in Eo, Ee.
    apply negb_false_iff in Eo, Ee. simpl in *. by rewrite Eo, Ee in Hnd.
  - apply (will_overflow_can_proceed c) in Hov. destruct s; congruence.
Qed.

(** With the pipes bound to close or a reader bound to overflow, enough
    fuel and enough time, the gathering returns; the child is then dead or
    exits on its own. *)
Lemma gather_from_total c i extra : ∀ fuel sched out err st,
  (turns_left (st_proc st) out err ≤ fuel)%nat →
  time_for (turns_left (st_proc st) out err + extra) (st_deadline st) →
  will_proceed c (output_limit i) (st_proc st) out err →
  ∃ o e st',
    gather_from c i fuel sched out err st = (Done (o, e), st')
    ∧ time_for extra (st_deadline st')
    ∧ will_close c (st_proc st') = true.
Proof.
  induction fuel as [|fuel IH]; intros sched out err st Hfuel Htime Hwp.
  - assert (Hdone : rd_done out = true ∧ rd_done err = true).
    { unfold turns_left, reader_turns in Hfuel.
      destruct (rd_done out), (rd_done err); simpl in *; first [lia|done]. }
    destruct Hdone as [Ho He]. simpl. rewrite Ho, He. simpl.
    exists (rd_output out), (rd_output err), st. split; [done|].
    unfold turns_left, reader_turns in Htime. rewrite Ho, He in Htime.
    split; [done|].
    destruct Hwp as [|[s [Hnd _]]]; [done|]. destruct s; simpl in *; congruence.
  - simpl. destruct (rd_done out && rd_done err) eqn:Edone.
    + apply andb_prop in Edone as [Ho He].
      exists (rd_output out), (rd_output err), st. split; [done|].
      unfold turns_left, reader_turns in Htime. rewrite Ho, He in Htime.
      split; [done|].
      destruct Hwp as [|[s [Hnd _]]]; [done|]. destruct s; simpl in *; congruence.
    + unfold bind at 1. unfold get_proc.
      destruct (will_proceed_pick c _ _ _ _ sched Hwp Edone) as [s Epick].
      rewrite Epick.
      pose proof (pick_Some _ _ _ Epick) as Hcan.
      pose proof (can_proceed_not_done _ _ _ _ _ Hcan) as Hnd.
      assert (Hpos : (1 ≤ turns_left (st_proc st) out err)%nat).
      { unfold turns_left, reader_turns.
        destruct s; simpl in Hnd; rewrite Hnd; lia. }
      destruct (read_iter_total c i s out err st Hcan) as (o1 & d1 & st1 & Hit & Hdl).
      { destruct (st_deadline st); simpl in *; [lia|done]. }
      pose proof (turns_left_step _ _ _ _ _ _ _ _ _ Hnd Hit) as Hlt.
      pose proof (will_proceed_step _ _ _ _ _ _ _ _ _ Hwp Hnd Hit) as Hwp1.
      assert (Htime1 : time_for
                (turns_left (st_proc st1)
                   (with_reader s {| rd_output := o1; rd_done := d1 |} out err).1
                   (with_reader s {| rd_output := o1; rd_done := d1 |} out err).2
                 + extra) (st_deadline st1)).
      { rewrite Hdl. destruct (st_deadline st); simpl in *; [lia|done]. }
      destruct s; simpl in *; unfold bind; rewrite Hit; apply IH; try done; lia.
Qed.

(** ** Running to completion *)

Lemma write_stdin_total h c i n st :
  resolve_input h i = None ∨ drains_stdin c = true →
  time_for (2 + n) (st_deadline st) →
  ∃ st', write_stdin h c i st = (Done (), st') ∧ time_for n (st_deadline st').
Proof.
  intros Hin Htime. destruct st as [p log d]. simpl in *.
  unfold write_stdin, stdin_write, stdin_drain, stdin_close, stdin_wait_closed,
    update_stdin, bind, get_proc, set_proc, emit, await, ret. simpl.
  destruct (proc_stdin p); simpl.
  - destruct (resolve_input h i) as [data|]; simpl.
    + destruct Hin as [Hin|Hin]; [done|]. rewrite Hin.
      destruct d as [[|[|k]]|]; simpl in *; try lia; eexists; (split; [done|]);
        simpl; lia.
    + destruct d as [[|k]|]; simpl in *; try lia; eexists; (split; [done|]);
        simpl; lia.
  - eexists. split; [done|]. destruct d; simpl in *; lia.
Qed.

Lemma proc_wait_total c st :
  will_close c (st_proc st) = true →
  time_for 1 (st_deadline st) →
  ∃ rc st', proc_wait c st = (Done rc, st').
Proof.
  intros Hw Htime. destruct st as [p log d]. simpl in *.
  unfold proc_wait, bind, get_proc, set_proc, emit, await, never, ret. simpl.
  unfold will_close in Hw.
  destruct (proc_returncode p) as [rc|].
  - destruct d as [[|k]|]; simpl in *; try lia; eauto.
  - destruct (exit_status c) as [rc|].
    + destruct d as [[|k]|]; simpl in *; try lia; eauto.
    + rewrite !bool_decide_eq_false_2 in Hw by (by intros []). done.
Qed.

Lemma will_proceed_start c i p :
  (∀ s, get_stream s p = pipe_of c i s) →
  is_Some (exit_status c)
  ∨ (∃ s, (read_stream_alone (output_limit i) (pipe_of c i s)).2 = true) →
  will_proceed c (output_limit i) p
    (read_stream_start Stdout p) (read_stream_start Stderr p).
Proof.
  intros Hs [Hex|[s Hov]].
  - left. unfold will_close. rewrite (bool_decide_eq_true_2 _ Hex).
    apply orb_true_r.
  - right. exists s. unfold will_overflow.
    replace (reader_of s (read_stream_start Stdout p) (read_stream_start Stderr p))
      with (read_stream_start s p) by (by destruct s).
    unfold read_stream_start. rewrite <- Hs in Hov.
    destruct (get_stream s p); [done|]. done.
Qed.

Lemma turns_left_start c i p :
  (∀ s, get_stream s p = pipe_of c i s) →
  turns_left p (read_stream_start Stdout p) (read_stream_start Stderr p)
  = (turns_needed (pipe_of c i Stdout) + turns_needed (pipe_of c i Stderr))%nat.
Proof.
  intros Hs. unfold turns_left, reader_turns, read_stream_start.
  rewrite <- !Hs. simpl.
  by destruct (proc_stdout p), (proc_stderr p).
Qed.




(** ** C1 *)


(** ** C9 *)

Lemma read_stream_alone_result limit data bytes k :
  read_stream_alone limit (Some data) = (bytes, k) →
  (k = false → bytes = concat data) ∧ (k = true → exceeds limit bytes = true).
Proof.
  intros Ha. unfold read_stream_alone in Ha.
  pose proof (read_stream_loop_result limit data []) as (_ & Hfull & Hex).
  rewrite Ha in Hfull, Hex. simpl in *. done.
Qed.



(** ** The theorems at work on the examples *)




Lemma C3_witness :
  ∃ bytes,
    carries example_host (limited_call 1)
      (Binary ["o"; "u"; "t"]%byte) bytes
    ∧ Z.of_nat (length bytes) ≤ 1 + 8192
    ∧ (1 < Z.of_nat (length bytes) →
       In Kill (child_log (subprocess example_host chatty_child example_globals
                             (limited_call 1)))).
Proof.
  edestruct (C3_output_limit_bounds_retained_output
               example_host chatty_child example_globals (limited_call 1) 1
               {| success := false; returncode := -9;
                  stdout := Binary ["o"; "u"; "t"]%byte;
                  stderr := Binary ["e"; "r"]%byte |} Stdout)
    as (bytes & Hc & _ & _ & _ & Hb & Hk & _);
    [reflexivity|reflexivity|lia|vm_compute; reflexivity|].
  exists bytes. split; [exact Hc|]. split; [exact Hb|].
  intros Hlt. by apply Hk.
Defined.

Lemma C5_witness :
  (∀ s n chunk,
     ¬ In (OnChild (Read s n chunk))
         (events (subprocess example_host example_child example_globals
                    uncaptured_call)))
  ∧ (∀ e o,
       In (OnChild e)
         (events (subprocess example_host example_child example_globals
                    uncaptured_call)) →
       spawn_options_of e = Some o →
       opt_stdout o = Inherit ∧ opt_stderr o = Inherit)
  ∧ (∀ res,
       outcome (subprocess example_host example_child example_globals
                  uncaptured_call) = Returned res →
       stdout res = empty_payload uncaptured_call
       ∧ stderr res = empty_payload uncaptured_call).
Proof.
  apply (C5_uncaptured_output_is_empty
           example_host example_child example_globals uncaptured_call).
  reflexivity.
Defined.


Lemma C8_witness :
  default_max_subprocesses example_host = 4
  ∧ context_var_get example_host
      (init_max_subprocesses example_host (Some 0) example_globals) = 4
  ∧ context_var_get example_host
      (init_max_subprocesses example_host (Some 2) example_globals) = 2.
Proof.
  destruct (C8_limit_read_at_each_invocation example_host example_globals)
    as ((_ & _ & Hcpu & _) & _ & Hinit & _).
  split; [by apply (Hcpu 4%N)|].
  split; [exact (Hinit (Some 0))|exact (Hinit (Some 2))].
Defined.



Lemma C10_witness :
  subprocess example_host sleeping_child example_globals
    (set_timeout (Some 0) example_call)
  = subprocess example_host sleeping_child example_globals
      (set_timeout None (set_timeout (Some 0) example_call))
  ∧ outcome (subprocess example_host sleeping_child example_globals
               (set_timeout (Some 0) example_call)) ≠ Raises TimeoutError
  ∧ ¬ In (OnChild Terminate)
        (events (subprocess example_host sleeping_child example_globals
                   (set_timeout (Some 0) example_call))).
Proof.
  apply (C10_zero_timeout_is_no_timeout
           example_host sleeping_child example_globals
           (set_timeout (Some 0) example_call)).
  reflexivity.
Defined.

(** * Further properties of [run_command_timeout]

    What follows is about [run_command_timeout()], the coroutine that
    [subprocess] runs once it holds its slot: the spawn, the pipeline and
    the handling of the timeout. *)

(** ** The anatomy of [await_result]

    Either the deadline cancels the pipeline, and the handler runs and
    [TimeoutError] is raised; or the pipeline ends in its own way, and
    that is how [await_result] ends. *)
Lemma await_result_cases h c i st :
  st_deadline st = None →
  ∃ r1 st1,
    run_command_result h c i (with_deadline (armed_deadline c i) st) = (r1, st1)
    ∧ ((r1 = Raised CancelledError
        ∧ armed_deadline c i ≠ None
        ∧ ∃ p, await_result h c i st
               = (Raised TimeoutError,
                  {| st_proc := p;
                     st_log := st_log st1 ++ termination_events c (st_proc st1);
                     st_deadline := None |})
               ∧ (terminate_raises c = false → is_Some (proc_returncode p)))
       ∨ (r1 ≠ Raised CancelledError
          ∧ r1 ≠ Raised TimeoutError
          ∧ await_result h c i st = (r1, with_deadline None st1))).
Proof.
  intros Hd. destruct st as [p log d]. simpl in Hd. subst d.
  unfold armed_deadline, await_result, with_deadline. cbn [st_proc st_log].
  assert (Hplain : ∃ r1 st1,
    run_command_result h c i {| st_proc := p; st_log := log; st_deadline := None |}
    = (r1, st1)
    ∧ (r1 = Raised CancelledError ∧ (None : option nat) ≠ None
       ∧ (∃ p0, run_command_result h c i
                  {| st_proc := p; st_log := log; st_deadline := None |}
                = (Raised TimeoutError,
                   {| st_proc := p0;
                      st_log := st_log st1 ++ termination_events c (st_proc st1);
                      st_deadline := None |})
                ∧ (terminate_raises c = false → is_Some (proc_returncode p0)))
       ∨ r1 ≠ Raised CancelledError ∧ r1 ≠ Raised TimeoutError
         ∧ run_command_result h c i
             {| st_proc := p; st_log := log; st_deadline := None |}
           = (r1, {| st_proc := st_proc st1; st_log := st_log st1;
                     st_deadline := None |}))).
  { destruct (run_command_result h c i _) as [r1 st1] eqn:Er.
    exists r1, st1. split; [done|]. right.
    destruct (behaves_run_command_result h c i _ _ _ I Er) as (_ & _ & Hdl & Hr).
    simpl in Hdl. specialize (Hdl eq_refl).
    destruct st1 as [p1 log1 d1]. simpl in *. subst d1.
    split; [|split; [|done]]; intros ->;
      by destruct (Hr _ eq_refl) as [[_ ?]|]. }
  destruct (timeout i) as [delay|]; [|exact Hplain].
  destruct (delay =? 0) eqn:Ez; [exact Hplain|]. clear Hplain.
  unfold try_except.
  replace (if python_ge_3_11 h
           then asyncio_timeout c delay (run_command_result h c i)
           else asyncio_wait_for c (run_command_result h c i) delay)
    with (asyncio_timeout c delay (run_command_result h c i))
    by (by destruct (python_ge_3_11 h)).
  unfold asyncio_timeout. cbn [st_proc st_log st_deadline].
  destruct (run_command_result h c i _) as [r1 st1] eqn:Er.
  exists r1, st1. split; [done|].
  destruct (behaves_run_command_result h c i _ _ _ I Er) as (_ & _ & _ & Hr).
  destruct r1 as [res|e|].
  - right. done.
  - destruct (Hr e eq_refl) as [[-> _]| ->].
    + left. split; [done|]. split; [done|].
      cbn [is_TimeoutError]. unfold bind.
      destruct (terminate_timed_out_runs c
                  {| st_proc := st_proc st1; st_log := st_log st1;
                     st_deadline := None |} eq_refl) as (p1 & -> & Hp).
      exists p1. done.
    + right. done.
  - right. done.
Qed.

(** A run of [run_command_timeout()] whose child was started. *)
Lemma run_command_timeout_started h c i log0 p0 :
  run_command_spawn h c i = (log0, inr p0) →
  let r := run_command_timeout h c i in
  ∃ r1 st1,
    run_command_result h c i
      {| st_proc := p0; st_log := log0; st_deadline := armed_deadline c i |}
    = (r1, st1)
    ∧ (∃ evs, st_log st1 = log0 ++ evs ∧ Forall pipeline_event evs)
    ∧ ((r1 = Raised CancelledError
        ∧ armed_deadline c i ≠ None
        ∧ cr_result r = Raised TimeoutError
        ∧ cr_log r = st_log st1 ++ termination_events c (st_proc st1)
        ∧ ∃ p, cr_proc r = Some p
               ∧ (terminate_raises c = false → is_Some (proc_returncode p)))
       ∨ (r1 ≠ Raised CancelledError
          ∧ r1 ≠ Raised TimeoutError
          ∧ cr_result r = r1
          ∧ cr_log r = st_log st1
          ∧ cr_proc r = Some (st_proc st1))).
Proof.
  intros Hsp r. unfold r, run_command_timeout. rewrite Hsp.
  destruct (await_result_cases h c i
              {| st_proc := p0; st_log := log0; st_deadline := None |} eq_refl)
    as (r1 & st1 & Hrun & Hcases).
  unfold with_deadline in Hrun. cbn [st_proc st_log] in Hrun.
  exists r1, st1. split; [done|].
  destruct (behaves_run_command_result h c i _ _ _ I Hrun) as (_ & Hlog & _).
  split; [done|].
  destruct Hcases as [(-> & Ha & p & -> & Hp)|(Hc & Ht & ->)].
  - left. cbn. eauto 10.
  - right. done.
Qed.

Lemma run_command_timeout_not_started h c i log0 e :
  run_command_spawn h c i = (log0, inl e) →
  run_command_timeout h c i
  = {| cr_result := Raised e; cr_log := log0; cr_proc := None |}.
Proof. intros Hsp. unfold run_command_timeout. by rewrite Hsp. Qed.

Lemma termination_events_Terminate c p : In Terminate (termination_events c p).
Proof. unfold termination_events. destruct (terminate_raises c); by left. Qed.

Lemma pipeline_event_not_In (e : ProcEvent) evs :
  ¬ pipeline_event e → Forall pipeline_event evs → ¬ In e evs.
Proof.
  intros He Hevs Hin. apply list_elem_of_In in Hin.
  rewrite Forall_forall in Hevs. by apply He, Hevs.
Qed.

(** X1. The child is asked to terminate exactly in the runs that raise
    [TimeoutError]: a run that returns a result, raises anything else or
    never ends has never called [terminate()], and one that raises
    [TimeoutError] has, under a timeout that is not zero. *)
Theorem X1_terminate_iff_timeout h c i :
  let r := run_command_timeout h c i in
  (In Terminate (cr_log r) ↔ cr_result r = Raised TimeoutError)
  ∧ (cr_result r = Raised TimeoutError → truthy (timeout i) = true).
Proof.
  intros r. unfold r.
  destruct (run_command_spawn h c i) as [log0 [e|p0]] eqn:Hsp.
  - rewrite (run_command_timeout_not_started h c i log0 e Hsp). cbn.
    pose proof (run_command_spawn_log h c i Terminate) as Hlog.
    pose proof (run_command_spawn_exn h c i e) as Hex.
    rewrite Hsp in Hlog, Hex. simpl in Hlog, Hex.
    assert (He : Raised (A := ExecResult) e ≠ Raised TimeoutError).
    { intros [= ->]. by destruct (Hex eq_refl) as [|[]]. }
    split; [split|]; [intros Hin; by specialize (Hlog Hin)|done..].
  - destruct (run_command_timeout_started h c i log0 p0 Hsp)
      as (r1 & st1 & Hrun & (evs & Hl & Hevs) & Hcases).
    destruct Hcases as [(_ & Ha & -> & -> & _)|(_ & Ht & -> & -> & _)].
    + split; [split; [done|]|].
      * intros _. apply in_app_iff. right. apply termination_events_Terminate.
      * intros _. unfold armed_deadline in Ha. unfold truthy.
        destruct (timeout i) as [delay|]; [|done]. by destruct (delay =? 0).
    + split; [split|]; [|done..].
      rewrite Hl, in_app_iff. intros [Hin|Hin].
      * pose proof (run_command_spawn_log h c i Terminate) as Hlog.
        rewrite Hsp in Hlog. by specialize (Hlog Hin).
      * exfalso. eapply pipeline_event_not_In; [|exact Hevs|exact Hin].
        by intros [].
Qed.

(** ** What is raised, and when *)







(** ** The spawn *)

(** X3. The child is spawned at most once, by the first call that is made:
    through the shell when the arguments are one string, directly when
    they are a vector, the first element being the program and the others
    its arguments; an empty vector spawns nothing.  The standard input is
    always piped, stdout and stderr are piped exactly when the output is
    captured, and the working directory is the one that was asked for. *)
Theorem X3_spawned_once_in_the_form_of_args h c i :
  let r := run_command_timeout h c i in
  (∃ evs,
     Forall post_spawn evs
     ∧ match args i with
       | Shell cmd => cr_log r = SpawnShell cmd (spawn_options h i) :: evs
       | Argv [] => cr_log r = []
       | Argv (program :: arguments) =>
           cr_log r = SpawnExec program arguments (spawn_options h i) :: evs
       end)
  ∧ (∀ e o, In e (cr_log r) → spawn_options_of e = Some o →
       opt_stdin o = PIPE
       ∧ (opt_stdout o = PIPE ↔ capture_output i = true)
       ∧ (opt_stderr o = PIPE ↔ capture_output i = true)
       ∧ opt_cwd o = cwd i).
Proof.
  intros r.
  destruct (run_command_timeout_anatomy h c i) as ((evs & Hlog & Hevs) & _).
  fold r in Hlog. split.
  - revert Hlog. unfold run_command_spawn, create_subprocess.
    destruct (args i) as [cmd|[|program arguments]] eqn:Ea; simpl; intros Hlog.
    + by exists evs.
    + exists []. split; [done|].
      unfold r, run_command_timeout, run_command_spawn. by rewrite Ea.
    + by exists evs.
  - intros e o Hin Ho. rewrite Hlog, in_app_iff in Hin.
    assert (Hopt : o = spawn_options h i).
    { destruct Hin as [Hin|Hin].
      - apply run_command_spawn_log in Hin. congruence.
      - apply list_elem_of_In in Hin. rewrite Forall_forall in Hevs.
        apply Hevs in Hin. unfold post_spawn in Hin. congruence. }
    subst o. unfold spawn_options. simpl.
    destruct (capture_output i); done.
Qed.

(** X4. No child is started exactly when the argument vector is empty or
    the child cannot be started.  An empty vector raises [IndexError]
    before any call is made, even when the child could not have been
    started either; a child that cannot be started raises its own error
    after the one attempt to spawn it.  Nothing else is done in either
    case, whatever the timeout. *)
Theorem X4_failed_start h c i :
  let r := run_command_timeout h c i in
  (cr_proc r = None ↔ args i = Argv [] ∨ is_Some (cannot_start c))
  ∧ (args i = Argv [] →
     r = {| cr_result := Raised IndexError; cr_log := []; cr_proc := None |})
  ∧ (∀ msg, cannot_start c = Some msg → args i ≠ Argv [] →
       ∃ e, r = {| cr_result := Raised (SpawnError msg); cr_log := [e];
                   cr_proc := None |}
            ∧ spawn_options_of e = Some (spawn_options h i)).
Proof.
  intros r. unfold r, run_command_timeout, run_command_spawn, create_subprocess.
  destruct (args i) as [cmd|[|program arguments]];
    destruct (cannot_start c) as [msg|] eqn:Hc; simpl;
    try destruct (await_result h c i _) as [r1 st1]; simpl.
  all: split; [split|split].
  all: try by (intros; simplify_eq/=; eauto).
  all: by (intros [?|[? ?]]; simplify_eq).
Qed.

(** ** The input *)

Lemma run_command_result_set_input h c i v st :
  resolve_input h (set_input v i) = resolve_input h i →
  run_command_result h c (set_input v i) st = run_command_result h c i st.
Proof.
  intros Hin. unfold run_command_result, bind.
  replace (write_stdin h c (set_input v i) st) with (write_stdin h c i st)
    by (unfold write_stdin, bind; by rewrite Hin).
  destruct (write_stdin h c i st) as [[[]| |] st1]; [|done..].
  unfold collect_result, gather_read_streams, bind, get_proc.
  by rewrite (gather_from_ext c (set_input v i) i).
Qed.

Lemma await_result_set_input h c i v st :
  resolve_input h (set_input v i) = resolve_input h i →
  await_result h c (set_input v i) st = await_result h c i st.
Proof.
  intros Hin. unfold await_result. cbn [timeout set_input].
  destruct (timeout i) as [delay|]; [|by apply run_command_result_set_input].
  destruct (delay =? 0); [by apply run_command_result_set_input|].
  unfold try_except, asyncio_wait_for, asyncio_timeout.
  destruct (python_ge_3_11 h); by rewrite run_command_result_set_input.
Qed.

(** X5. Text given as input is encoded once, before anything else is
    done: a call with a [str] as input is the call with the bytes of its
    encoding as input, in its result, in the calls it makes and in the
    state in which it leaves the child. *)
Theorem X5_text_input_is_its_encoding h c i s :
  input i = Some (InStr s) →
  run_command_timeout h c i
  = run_command_timeout h c (set_input (Some (InBytes (str_encode h s))) i).
Proof.
  intros Hin. unfold run_command_timeout.
  change (run_command_spawn h c (set_input (Some (InBytes (str_encode h s))) i))
    with (run_command_spawn h c i).
  destruct (run_command_spawn h c i) as [log [e|p]]; [done|].
  rewrite await_result_set_input; [done|].
  unfold resolve_input. by rewrite Hin.
Qed.

(** ** A deadline that does not expire

    The coroutines of the pipeline are [undisturbed]. *)
Lemma undisturbed_ret {A} (a : A) : undisturbed (ret a).
Proof. by intros st b st' [= <- <-]. Qed.

Lemma undisturbed_raise {A} e : undisturbed (raise (A := A) e).
Proof. by intros st b st'. Qed.

Lemma undisturbed_bind {A B} (m : Task A) (f : A → Task B) :
  undisturbed m → (∀ a, undisturbed (f a)) → undisturbed (bind m f).
Proof.
  intros Hm Hf st b st'. unfold bind.
  destruct (m st) as [[a|e|] st1] eqn:Em; try done.
  intros Ef. rewrite (Hm _ _ _ Em). by apply Hf.
Qed.

Lemma undisturbed_get_proc {B} (f : Process → Task B) :
  (∀ p, undisturbed (f p)) → undisturbed (bind get_proc f).
Proof. intros Hf st b st' H. unfold bind, get_proc in *. by apply Hf in H. Qed.

Lemma undisturbed_set_proc p : undisturbed (set_proc p).
Proof. by intros st b st' [= <- <-]. Qed.

Lemma undisturbed_emit e : undisturbed (emit e).
Proof. by intros st b st' [= <- <-]. Qed.

Lemma undisturbed_await ready : undisturbed (await ready).
Proof.
  intros [p l d] [] st'. unfold await, with_deadline. simpl.
  destruct d as [[|k]|], ready; intros [= <-]; done.
Qed.

Lemma undisturbed_never {A} : undisturbed (never (A := A)).
Proof. intros [p l d] b st'. unfold never. simpl. by destruct d. Qed.

(** Decomposes a goal [undisturbed m] along the structure of [m]. *)
Ltac undisturb :=
  repeat first
    [ apply undisturbed_ret
    | apply undisturbed_raise
    | apply undisturbed_await
    | apply undisturbed_never
    | apply undisturbed_emit
    | apply undisturbed_set_proc
    | apply undisturbed_get_proc; intros ?
    | apply undisturbed_bind; [|intros ?]
    | match goal with
      | |- undisturbed (match ?x with _ => _ end) => destruct x
      | |- undisturbed (if ?x then _ else _) => destruct x
      end ].

Lemma undisturbed_read_iter c i s output : undisturbed (read_iter c i s output).
Proof. unfold read_iter, stream_read, proc_kill. undisturb. Qed.

Lemma undisturbed_gather_from c i :
  ∀ fuel sched out err, undisturbed (gather_from c i fuel sched out err).
Proof.
  induction fuel as [|fuel IH]; intros sched out err; simpl.
  - undisturb.
  - destruct (rd_done out && rd_done err); [undisturb|].
    apply undisturbed_get_proc. intros p.
    destruct (pick _ _) as [[|]|]; [..|undisturb];
      (apply undisturbed_bind; [apply undisturbed_read_iter|]);
      intros [output done]; apply IH.
Qed.

Lemma undisturbed_run_command_result h c i : undisturbed (run_command_result h c i).
Proof.
  unfold run_command_result. apply undisturbed_bind.
  - unfold write_stdin, stdin_write, stdin_drain, stdin_close,
      stdin_wait_closed, update_stdin. undisturb.
  - intros _. unfold collect_result. apply undisturbed_bind.
    + unfold gather_read_streams. apply undisturbed_get_proc. intros p.
      apply undisturbed_gather_from.
    + intros [out err]. unfold proc_wait, decode. undisturb.
Qed.

(** X6. A timeout that does not expire changes nothing: when a call with
    a timeout returns a result, the call without the timeout returns the
    same result, after the same calls, and leaves the child in the same
    state. *)
Theorem X6_unexpired_timeout_changes_nothing h c i res :
  cr_result (run_command_timeout h c i) = Done res →
  run_command_timeout h c (set_timeout None i) = run_command_timeout h c i.
Proof.
  intros Hres.
  destruct (run_command_spawn h c i) as [log0 [e|p0]] eqn:Hsp.
  { by rewrite (run_command_timeout_not_started h c i log0 e Hsp) in Hres. }
  destruct (run_command_timeout_started h c i log0 p0 Hsp)
    as (r1 & st1 & Hrun & _ & Hcases).
  destruct Hcases as [(_ & _ & Ht & _)|(_ & _ & Hr & Hlog & Hproc)];
    [congruence|].
  rewrite Hres in Hr. subst r1.
  apply undisturbed_run_command_result in Hrun.
  unfold with_deadline in Hrun. cbn [st_proc st_log] in Hrun.
  destruct (run_command_timeout h c i) as [r l p] eqn:Er. simpl in *. subst.
  unfold run_command_timeout.
  change (run_command_spawn h c (set_timeout None i)) with (run_command_spawn h c i).
  rewrite Hsp. unfold await_result. cbn [timeout set_timeout].
  by rewrite run_command_result_set_timeout, Hrun.
Qed.

(** ** A deadline ends the wait

    The coroutines of the pipeline are [prompt]. *)
Lemma prompt_ret {A} (a : A) : prompt (ret a).
Proof. by intros st r st' Hd [= <- <-]. Qed.

Lemma prompt_raise {A} e : prompt (raise (A := A) e).
Proof. by intros st r st' Hd [= <- <-]. Qed.

Lemma prompt_bind {A B} (m : Task A) (f : A → Task B) :
  prompt m → (∀ a, prompt (f a)) → prompt (bind m f).
Proof.
  intros Hm Hf st r st' Hd. unfold bind.
  destruct (m st) as [ra st1] eqn:Em.
  destruct (Hm _ _ _ Hd Em) as [Hra Hd1].
  destruct ra as [a|e|]; [|by intros [= <- <-]|done].
  by apply Hf.
Qed.

Lemma prompt_get_proc {B} (f : Process → Task B) :
  (∀ p, prompt (f p)) → prompt (bind get_proc f).
Proof. intros Hf st r st' Hd. unfold bind, get_proc. by apply Hf. Qed.

Lemma prompt_set_proc p : prompt (set_proc p).
Proof. by intros st r st' Hd [= <- <-]. Qed.

Lemma prompt_emit e : prompt (emit e).
Proof. by intros st r st' Hd [= <- <-]. Qed.

Lemma prompt_await ready : prompt (await ready).
Proof.
  intros [p l d] r st' [k Hd]. simpl in Hd. subst d. unfold await. simpl.
  destruct k as [|k], ready; by intros [= <- <-].
Qed.

Lemma prompt_never {A} : prompt (never (A := A)).
Proof.
  intros [p l d] r st' [k Hd]. simpl in Hd. subst d. unfold never. simpl.
  by intros [= <- <-].
Qed.

(** Decomposes a goal [prompt m] along the structure of [m]. *)
Ltac promptly :=
  repeat first
    [ apply prompt_ret
    | apply prompt_raise
    | apply prompt_await
    | apply prompt_never
    | apply prompt_emit
    | apply prompt_set_proc
    | apply prompt_get_proc; intros ?
    | apply prompt_bind; [|intros ?]
    | match goal with
      | |- prompt (match ?x with _ => _ end) => destruct x
      | |- prompt (if ?x then _ else _) => destruct x
      end ].

Lemma prompt_read_iter c i s output : prompt (read_iter c i s output).
Proof. unfold read_iter, stream_read, proc_kill. promptly. Qed.

Lemma prompt_gather_from c i :
  ∀ fuel sched out err, prompt (gather_from c i fuel sched out err).
Proof.
  induction fuel as [|fuel IH]; intros sched out err; simpl.
  - promptly.
  - destruct (rd_done out && rd_done err); [promptly|].
    apply prompt_get_proc. intros p.
    destruct (pick _ _) as [[|]|]; [..|promptly];
      (apply prompt_bind; [apply prompt_read_iter|]);
      intros [output done]; apply IH.
Qed.

Lemma prompt_run_command_result h c i : prompt (run_command_result h c i).
Proof.
  unfold run_command_result. apply prompt_bind.
  - unfold write_stdin, stdin_write, stdin_drain, stdin_close,
      stdin_wait_closed, update_stdin. promptly.
  - intros _. unfold collect_result. apply prompt_bind.
    + unfold gather_read_streams. apply prompt_get_proc. intros p.
      apply prompt_gather_from.
    + intros [out err]. unfold proc_wait, decode. promptly.
Qed.

(** X7. Under a timeout that is not zero the call always ends: it returns
    a result or it raises, whatever the child does, be it a child that
    never takes its input, never closes its pipes or never exits. *)
Theorem X7_timeout_ends_the_call h c i :
  truthy (timeout i) = true →
  cr_result (run_command_timeout h c i) ≠ Blocked.
Proof.
  intros Ht.
  destruct (run_command_spawn h c i) as [log0 [e|p0]] eqn:Hsp.
  { by rewrite (run_command_timeout_not_started h c i log0 e Hsp). }
  destruct (run_command_timeout_started h c i log0 p0 Hsp)
    as (r1 & st1 & Hrun & _ & Hcases).
  destruct Hcases as [(_ & _ & -> & _)|(_ & _ & -> & _)]; [done|].
  apply prompt_run_command_result in Hrun; [by destruct Hrun|].
  cbn [st_deadline]. unfold armed_deadline. unfold truthy in Ht.
  destruct (timeout i) as [delay|]; [|done].
  by destruct (delay =? 0).
Qed.

(** ** Where a kill comes from *)

Lemma exceeds_app limit a b :
  exceeds limit a = true → exceeds limit (a ++ b) = true.
Proof.
  unfold exceeds. destruct limit as [l|]; [|done].
  rewrite length_app, !Z.gtb_ltb, !Z.ltb_lt. lia.
Qed.

(** A turn that does not complete logs nothing. *)
Lemma read_iter_not_Done c i s output st r st' :
  read_iter c i s output st = (r, st') →
  (∀ x, r ≠ Done x) →
  st_log st' = st_log st.
Proof.
  destruct st as [p log d].
  unfold read_iter, stream_read, proc_kill, bind, get_proc, set_proc,
    emit, await, ret. simpl.
  destruct (take_chunk _ _) as [[chunk rest]|]; simpl.
  - destruct d as [[|k]|]; simpl; [by intros [= <- <-]|..];
      (destruct chunk as [|b chunk]; [intros [= <- <-] H; by destruct (H _ eq_refl)|]);
      destruct (exceeds _ _); simpl;
      try destruct (proc_returncode _); simpl;
      intros [= <- <-] H; by destruct (H _ eq_refl).
  - destruct (will_close c p), d as [[|k]|]; simpl; intros [= <- <-] H;
      first [done | by destruct (H _ eq_refl)].
Qed.

Lemma gather_inv_step_kill_origin c i p0 log0 st evs out err s o d st' :
  gather_inv c (output_limit i) p0 log0 st evs out err →
  kill_origin (output_limit i) p0 evs →
  rd_done (reader_of s out err) = false →
  read_iter c i s (rd_output (reader_of s out err)) st = (Done (o, d), st') →
  ∃ evs',
    gather_inv c (output_limit i) p0 log0 st' evs'
      (with_reader s {| rd_output := o; rd_done := d |} out err).1
      (with_reader s {| rd_output := o; rd_done := d |} out err).2
    ∧ kill_origin (output_limit i) p0 evs'.
Proof.
  intros Hinv Hko Hnd Hit.
  destruct (gather_inv_step c i p0 log0 st evs out err s o d st' Hinv Hnd Hit)
    as (evs' & Hinv').
  exists evs'. split; [done|].
  assert (Hself : concat (reads_of s evs') = o).
  { destruct Hinv' as [_ [Ho _] [He _] _ _]. by destruct s. }
  assert (Hcur : match get_stream s p0, get_stream s (st_proc st) with
                 | Some q0, Some q =>
                     read_stream_loop (pipe_bytes q) (output_limit i)
                       (rd_output (reader_of s out err)) q
                     = read_stream_alone (output_limit i) (Some q0)
                 | _, _ => False
                 end).
  { destruct Hinv as [_ [_ Ho] [_ He] _ _].
    destruct s; simpl in *; rewrite Hnd in *.
    - destruct (proc_stdout p0), (proc_stdout (st_proc st)); try done.
      by destruct Ho.
    - destruct (proc_stderr p0), (proc_stderr (st_proc st)); try done.
      by destruct He. }
  pose proof (gi_log _ _ _ _ _ _ _ _ Hinv) as Hl.
  pose proof (gi_log _ _ _ _ _ _ _ _ Hinv') as Hl'.
  apply read_iter_Done in Hit.
  destruct (get_stream s p0) as [q0|] eqn:Eq0; [|done].
  destruct (get_stream s (st_proc st)) as [q|] eqn:Eq; [|done].
  simpl in Hit.
  assert (Hgrow : ∀ new, evs' = evs ++ new → has_kill new = false →
                         kill_origin (output_limit i) p0 evs').
  { intros new -> Hnew Hk. rewrite has_kill_app, Hnew, orb_false_r in Hk.
    destruct (Hko Hk) as (s0 & Hex & Hal). exists s0. split; [|done].
    rewrite reads_of_app, concat_app. by apply exceeds_app. }
  destruct Hit as [(chunk & rest & E & -> & Hd & Hlog & _)|(_ & _ & _ & Hlog & _)].
  - rewrite Hl, <- app_assoc in Hlog. rewrite Hl' in Hlog.
    apply app_inv_head in Hlog.
    destruct d.
    + intros _. exists s. rewrite Hself, Eq0. split; [done|].
      rewrite (read_stream_loop_step _ _ _ _ _ E), <- Hd in Hcur.
      by rewrite <- Hcur.
    + by apply (Hgrow _ Hlog).
  - rewrite Hl, <- app_assoc in Hlog. rewrite Hl' in Hlog.
    apply app_inv_head in Hlog. by apply (Hgrow _ Hlog).
Qed.

(** However the gathering ends, a kill in its log has this origin. *)
Lemma gather_from_kill_origin c i p0 log0 : ∀ fuel sched out err st evs r st',
  gather_inv c (output_limit i) p0 log0 st evs out err →
  kill_origin (output_limit i) p0 evs →
  gather_from c i fuel sched out err st = (r, st') →
  ∃ evs', st_log st' = log0 ++ evs' ∧ kill_origin (output_limit i) p0 evs'.
Proof.
  assert (Hnever : ∀ st evs (r : Res (list byte * list byte)) st',
            st_log st = log0 ++ evs → kill_origin (output_limit i) p0 evs →
            never st = (r, st') →
            ∃ evs', st_log st' = log0 ++ evs'
                    ∧ kill_origin (output_limit i) p0 evs').
  { intros st evs r st' Hl Hko. unfold never.
    destruct (st_deadline st); intros [= <- <-]; eauto. }
  induction fuel as [|fuel IH]; intros sched out err st evs r st' Hinv Hko; simpl.
  - pose proof (gi_log _ _ _ _ _ _ _ _ Hinv) as Hl.
    destruct (rd_done out && rd_done err); [|by eapply Hnever].
    intros [= <- <-]. eauto.
  - pose proof (gi_log _ _ _ _ _ _ _ _ Hinv) as Hl.
    destruct (rd_done out && rd_done err); [intros [= <- <-]; eauto|].
    unfold bind at 1. unfold get_proc.
    destruct (pick sched _) as [s|] eqn:Epick; [|by eapply Hnever].
    apply pick_Some, can_proceed_not_done in Epick.
    destruct s; simpl in Epick; unfold bind;
      destruct (read_iter c i _ _ st) as [[[o1 d1]|e1|] st1] eqn:Eit.
    + destruct (gather_inv_step_kill_origin c i p0 log0 st evs out err Stdout
                  o1 d1 st1 Hinv Hko Epick Eit) as (evs1 & Hinv1 & Hko1).
      by eapply IH.
    + intros [= <- <-]. apply read_iter_not_Done in Eit; [|done].
      rewrite Eit. eauto.
    + intros [= <- <-]. apply read_iter_not_Done in Eit; [|done].
      rewrite Eit. eauto.
    + destruct (gather_inv_step_kill_origin c i p0 log0 st evs out err Stderr
                  o1 d1 st1 Hinv Hko Epick Eit) as (evs1 & Hinv1 & Hko1).
      by eapply IH.
    + intros [= <- <-]. apply read_iter_not_Done in Eit; [|done].
      rewrite Eit. eauto.
    + intros [= <- <-]. apply read_iter_not_Done in Eit; [|done].
      rewrite Eit. eauto.
Qed.

Lemma gather_read_streams_kill_origin c i st r st' :
  proc_returncode (st_proc st) = None →
  gather_read_streams c i st = (r, st') →
  ∃ evs, st_log st' = st_log st ++ evs
         ∧ kill_origin (output_limit i) (st_proc st) evs.
Proof.
  intros Hrc. unfold gather_read_streams, bind, get_proc.
  apply gather_from_kill_origin with (evs := []).
  - by apply gather_inv_start.
  - done.
Qed.

(** After the gathering only the wait is logged. *)
Lemma collect_result_log h c i st r st' :
  collect_result h c i st = (r, st') →
  ∃ rg st2 evs,
    gather_read_streams c i st = (rg, st2)
    ∧ st_log st' = st_log st2 ++ evs
    ∧ Forall quiet_event evs.
Proof.
  unfold collect_result, bind at 1.
  destruct (gather_read_streams c i st) as [[[out err]|e|] st2] eqn:Eg.
  - intros H. exists (Done (out, err)), st2.
    eapply (behaves_bind (λ _, True) quiet_event (λ _, True)) in H; [| | |done].
    + destruct H as (_ & (evs & Hl & Hevs) & _). eauto.
    + by apply behaves_proc_wait.
    + intros rc. destruct (text i); [|behave].
      destruct (capture_output i); unfold decode; behave.
  - intros [= <- <-]. exists (Raised e), st2, []. by rewrite app_nil_r.
  - intros [= <- <-]. exists Blocked, st2, []. by rewrite app_nil_r.
Qed.

Lemma kill_origin_quiet limit p p' pre evs post :
  kill_origin limit p evs →
  Forall quiet_event pre →
  Forall quiet_event post →
  (∀ s, get_stream s p' = get_stream s p) →
  kill_origin limit p' (pre ++ evs ++ post).
Proof.
  intros Hko Hpre Hpost Hs Hk.
  rewrite !has_kill_app, (has_kill_quiet pre), (has_kill_quiet post) in Hk by done.
  rewrite orb_false_r in Hk. simpl in Hk.
  destruct (Hko Hk) as (s & Hex & Hal). exists s.
  rewrite !reads_of_app, (reads_of_quiet s pre), (reads_of_quiet s post) by done.
  rewrite app_nil_r, Hs. done.
Qed.

(** However the pipeline ends, a kill in its log has this origin. *)
Lemma run_command_result_kill_origin h c i st r st' :
  proc_returncode (st_proc st) = None →
  run_command_result h c i st = (r, st') →
  ∃ evs, st_log st' = st_log st ++ evs
         ∧ kill_origin (output_limit i) (st_proc st) evs.
Proof.
  intros Hrc. unfold run_command_result, bind.
  destruct (write_stdin h c i st) as [rw st1] eqn:Ew.
  apply write_stdin_quiet in Ew as (Hrc1 & Hs1 & evs1 & Hl1 & Hq1).
  assert (Hstop : ∃ evs, st_log st1 = st_log st ++ evs
                         ∧ kill_origin (output_limit i) (st_proc st) evs).
  { exists evs1. split; [done|]. intros Hk. by rewrite has_kill_quiet in Hk. }
  destruct rw as [[]|e|]; [|by intros [= <- <-]..].
  intros Hcol. apply collect_result_log in Hcol as (rg & st2 & evs3 & Hg & Hl3 & Hq3).
  apply gather_read_streams_kill_origin in Hg as (evs2 & Hl2 & Hko); [|congruence].
  exists (evs1 ++ evs2 ++ evs3).
  split; [by rewrite Hl3, Hl2, Hl1, <- !app_assoc|].
  by apply (kill_origin_quiet _ (st_proc st1)).
Qed.

(** X8. The child is killed only for one of two reasons: the timeout has
    expired, and the call raises [TimeoutError]; or the bytes read from a
    captured stream are more than the output limit.  Without an output
    limit and without a timeout the child is never killed, however the
    call ends. *)
Theorem X8_killed_only_over_limit_or_on_timeout h c i :
  let r := run_command_timeout h c i in
  In Kill (cr_log r) →
  cr_result r = Raised TimeoutError
  ∨ ∃ s L, output_limit i = Some L
           ∧ capture_output i = true
           ∧ L < Z.of_nat (length (concat (reads_of s (cr_log r)))).
Proof.
  intros r. unfold r.
  destruct (run_command_spawn h c i) as [log0 [e|p0]] eqn:Hsp.
  { rewrite (run_command_timeout_not_started h c i log0 e Hsp). cbn.
    intros Hin. pose proof (run_command_spawn_log h c i Kill) as Hlog.
    rewrite Hsp in Hlog. by specialize (Hlog Hin). }
  destruct (run_command_timeout_started h c i log0 p0 Hsp)
    as (r1 & st1 & Hrun & _ & Hcases).
  destruct Hcases as [(_ & _ & -> & _)|(_ & _ & _ & -> & _)]; [by left|].
  intros Hin. right.
  pose proof Hsp as Hsp'.
  apply run_command_spawn_proc in Hsp' as (Hrc0 & Hs0 & Hq0).
  apply run_command_result_kill_origin in Hrun as (evs & Hl & Hko); [|done].
  cbn [st_proc st_log] in Hl, Hko.
  assert (Hk : has_kill evs = true).
  { rewrite Hl in Hin. apply has_kill_In in Hin.
    by rewrite has_kill_app, (has_kill_quiet log0) in Hin. }
  destruct (Hko Hk) as (s & Hex & Hal).
  rewrite Hs0 in Hal. unfold pipe_of in Hal.
  destruct (capture_output i); [|done].
  unfold exceeds in Hex. destruct (output_limit i) as [L|]; [|done].
  exists s, L. split; [done|]. split; [done|].
  rewrite Hl, reads_of_app, (reads_of_quiet s log0), app_nil_l by done.
  lia.
Qed.

(** ** A run that returns a result *)

Lemma run_command_timeout_Done h c i res :
  cr_result (run_command_timeout h c i) = Done res →
  ∃ log0 p0 st1,
    run_command_spawn h c i = (log0, inr p0)
    ∧ run_command_result h c i
        {| st_proc := p0; st_log := log0; st_deadline := armed_deadline c i |}
      = (Done res, st1)
    ∧ cr_log (run_command_timeout h c i) = st_log st1
    ∧ cr_proc (run_command_timeout h c i) = Some (st_proc st1).
Proof.
  intros Hres.
  destruct (run_command_spawn h c i) as [log0 [e|p0]] eqn:Hsp.
  { by rewrite (run_command_timeout_not_started h c i log0 e Hsp) in Hres. }
  destruct (run_command_timeout_started h c i log0 p0 Hsp)
    as (r1 & st1 & Hrun & _ & Hcases).
  destruct Hcases as [(_ & _ & Ht & _)|(_ & _ & Hr & Hlog & Hproc)];
    [congruence|].
  rewrite Hres in Hr. subst r1. by exists log0, p0, st1.
Qed.

(** The pipeline that returns a result, step by step. *)
Lemma run_command_result_Done_anatomy h c i st res st' :
  proc_returncode (st_proc st) = None →
  run_command_result h c i st = (Done res, st') →
  ∃ st1 st2 evs1 evs out err ko ke,
    write_stdin h c i st = (Done (), st1)
    ∧ gather_read_streams c i st1 = (Done (out, err), st2)
    ∧ proc_wait c st2 = (Done (returncode res), st')
    ∧ st_log st1 = st_log st ++ evs1
    ∧ Forall quiet_event evs1
    ∧ st_log st2 = st_log st1 ++ evs
    ∧ read_stream_alone (output_limit i) (proc_stdout (st_proc st)) = (out, ko)
    ∧ read_stream_alone (output_limit i) (proc_stderr (st_proc st)) = (err, ke)
    ∧ concat (reads_of Stdout evs) = out
    ∧ concat (reads_of Stderr evs) = err
    ∧ (has_kill evs = true ↔ ko || ke = true)
    ∧ proc_returncode (st_proc st2)
      = (if has_kill evs then Some (kill_status c) else None)
    ∧ proc_stdin (st_proc st') = proc_stdin (st_proc st1)
    ∧ success res = (returncode res =? 0)
    ∧ (if capture_output i
       then carries h i (stdout res) out ∧ carries h i (stderr res) err
       else stdout res = empty_payload i ∧ stderr res = empty_payload i).
Proof.
  intros Hrc Hrun.
  apply run_command_result_Done in Hrun as (st1 & Hw & Hcol).
  pose proof Hw as Hw'.
  apply write_stdin_quiet in Hw' as (Hrc1 & Hs1 & evs1 & Hl1 & Hq1).
  apply collect_result_Done in Hcol as (out & err & st2 & Hg & Hwait & Hsucc & Hpay).
  pose proof Hg as Hg'. pose proof Hg as Hg''.
  apply gather_read_streams_sound in Hg'; [|congruence].
  destruct Hg' as (evs & ko & ke & Hl2 & Hao & Hae & Hro & Hre & _ & _ & Hk & Hrc2 & Hin2).
  apply gather_read_streams_kill_origin in Hg'' as (evs' & Hl2' & Hko); [|congruence].
  assert (evs' = evs) as -> by (rewrite Hl2 in Hl2'; by apply app_inv_head in Hl2').
  pose proof (Hs1 Stdout) as Ho. pose proof (Hs1 Stderr) as He. simpl in Ho, He.
  pose proof Hwait as Hwait'.
  apply proc_wait_Done in Hwait' as (_ & _ & Hin3 & _).
  exists st1, st2, evs1, evs, out, err, ko, ke.
  rewrite <- Ho, <- He.
  do 10 (split; [done|]).
  split; [|split; [done|split; [congruence|done]]].
  split; [|done].
  intros Hkill. destruct (Hko Hkill) as (s & _ & Hal).
  destruct s; simpl in Hal.
  - rewrite Hao in Hal. simpl in Hal. by rewrite Hal.
  - rewrite Hae in Hal. simpl in Hal. rewrite Hal. apply orb_true_r.
Qed.

Lemma read_stream_alone_unlimited stream :
  read_stream_alone None stream = (concat (default [] stream), false).
Proof.
  destruct stream as [data|]; [|done].
  destruct (read_stream_alone None (Some data)) as [bytes k] eqn:Ea.
  destruct (read_stream_alone_result None data bytes k Ea) as [Hfull Hex].
  destruct k; [by specialize (Hex eq_refl)|].
  by rewrite (Hfull eq_refl).
Qed.

(** X9. Without an output limit a result carries, for each captured
    stream, all the bytes the child sent to it, whatever the size of the
    pieces in which they arrived and the order in which the two streams
    were read; the child was not killed, and the status in the result is
    the one it exited with. *)
Theorem X9_no_limit_whole_output h c i res :
  output_limit i = None →
  capture_output i = true →
  cr_result (run_command_timeout h c i) = Done res →
  (∀ s, carries h i (payload_of s res) (concat (data_of c s))
        ∧ concat (reads_of s (cr_log (run_command_timeout h c i)))
          = concat (data_of c s))
  ∧ ¬ In Kill (cr_log (run_command_timeout h c i))
  ∧ exit_status c = Some (returncode res).
Proof.
  intros Hlim Hcap Hres.
  apply run_command_timeout_Done in Hres as (log0 & p0 & st' & Hsp & Hrun & -> & _).
  apply run_command_spawn_proc in Hsp as (Hrc0 & Hs0 & Hq0).
  apply run_command_result_Done_anatomy in Hrun; [|done].
  destruct Hrun as (st1 & st2 & evs1 & evs & out & err & ko & ke & _ & _ & Hwait
                    & Hl1 & Hq1 & Hl2 & Hao & Hae & Hro & Hre & Hk & Hrc2 & _ & _ & Hpay).
  cbn [st_proc st_log] in *.
  pose proof (Hs0 Stdout) as Ho. pose proof (Hs0 Stderr) as He.
  unfold pipe_of in Ho, He. rewrite Hcap in Ho, He. simpl in Ho, He.
  rewrite Hlim, read_stream_alone_unlimited in Hao, Hae.
  rewrite Ho in Hao. rewrite He in Hae. simpl in Hao, Hae.
  injection Hao as <- <-. injection Hae as <- <-.
  rewrite Hcap in Hpay. destruct Hpay as [Hpo Hpe].
  apply proc_wait_Done in Hwait as (_ & Hl3 & _ & Hst).
  assert (Hnk : has_kill evs = false).
  { destruct (has_kill evs); [|done]. by destruct Hk as [Hk _]; specialize (Hk eq_refl). }
  assert (Hlog : st_log st' = (log0 ++ evs1) ++ evs ++ [Wait (returncode res)]).
  { by rewrite Hl3, Hl2, Hl1, <- !app_assoc. }
  assert (Hpre : Forall quiet_event (log0 ++ evs1)) by (by apply Forall_app).
  split; [|split].
  - intros s.
    rewrite Hlog, (reads_of_app s (log0 ++ evs1)), (reads_of_quiet s _ Hpre),
      reads_of_app.
    cbn. rewrite app_nil_r. by destruct s.
  - rewrite Hlog. intros Hin. apply has_kill_In in Hin.
    rewrite (has_kill_app (log0 ++ evs1)), (has_kill_quiet _ Hpre),
      has_kill_app, Hnk in Hin.
    done.
  - rewrite Hrc2, Hnk in Hst. by destruct Hst as [|[_ ?]].
Qed.

Lemma write_stdin_Done h c i st st' :
  proc_stdin (st_proc st) = Some {| written := []; closed := false |} →
  write_stdin h c i st = (Done (), st') →
  proc_stdin (st_proc st')
  = Some {| written := default [] (resolve_input h i); closed := true |}
  ∧ (is_Some (resolve_input h i) → drains_stdin c = true).
Proof.
  intros Hin. destruct st as [p log d]. simpl in *.
  unfold write_stdin, stdin_write, stdin_drain, stdin_close, stdin_wait_closed,
    update_stdin, bind, get_proc, set_proc, emit, await, ret.
  simpl. rewrite Hin. simpl.
  destruct (resolve_input h i) as [data|]; simpl.
  - destruct (drains_stdin c); simpl.
    + destruct d as [[|[|k]]|]; simpl; intros [= <-]; simpl;
        rewrite ?Hin; simpl; split; done.
    + destruct d as [[|k]|]; simpl; intros [=].
  - destruct d as [[|k]|]; simpl; intros [= <-]; simpl;
      rewrite ?Hin; simpl; (split; [done|by intros []]).
Qed.

(** X10. A call that returns a result has given the child its input and
    nothing else: the bytes of the payload, all of them, and then the end
    of the stream; with no payload, the end of the stream at once.  A
    child that never takes the input it is given gets no call to return
    a result. *)
Theorem X10_returned_call_delivered_its_input h c i res :
  cr_result (run_command_timeout h c i) = Done res →
  (∃ p, cr_proc (run_command_timeout h c i) = Some p
        ∧ proc_stdin p
          = Some {| written := default [] (resolve_input h i); closed := true |})
  ∧ (is_Some (resolve_input h i) → drains_stdin c = true).
Proof.
  intros Hres.
  apply run_command_timeout_Done in Hres as (log0 & p0 & st' & Hsp & Hrun & _ & ->).
  pose proof (run_command_spawn_stdin h c i log0 p0 Hsp) as Hin0.
  apply run_command_spawn_proc in Hsp as (Hrc0 & _ & _).
  apply run_command_result_Done_anatomy in Hrun; [|done].
  destruct Hrun as (st1 & st2 & evs1 & evs & out & err & ko & ke & Hw & _ & _
                    & _ & _ & _ & _ & _ & _ & _ & _ & _ & Hin & _).
  apply write_stdin_Done in Hw as [Hin1 Hdr]; [|done].
  split; [|done]. exists (st_proc st'). by rewrite Hin, Hin1.
Qed.

(** X11. The two streams of a result are of the same kind, the one the
    call asked for: both text in text mode, both bytes otherwise, with or
    without the output captured. *)
Theorem X11_result_streams_of_one_kind h c i res :
  cr_result (run_command_timeout h c i) = Done res →
  if text i
  then ∃ out err, stdout res = Text out ∧ stderr res = Text err
  else ∃ out err, stdout res = Binary out ∧ stderr res = Binary err.
Proof.
  intros Hres.
  apply run_command_timeout_Done in Hres as (log0 & p0 & st' & Hsp & Hrun & _ & _).
  apply run_command_spawn_proc in Hsp as (Hrc0 & _ & _).
  apply run_command_result_Done_anatomy in Hrun; [|done].
  destruct Hrun as (st1 & st2 & evs1 & evs & out & err & ko & ke & _ & _ & _
                    & _ & _ & _ & _ & _ & _ & _ & _ & _ & _ & _ & Hpay).
  unfold carries, empty_payload in Hpay.
  destruct (capture_output i), (text i).
  - destruct Hpay as [(t1 & _ & ->) (t2 & _ & ->)]. eauto.
  - destruct Hpay as [-> ->]. eauto.
  - destruct Hpay as [-> ->]. eauto.
  - destruct Hpay as [-> ->]. eauto.
Qed.

(** ** The order in which the readers are resumed *)


Lemma await_result_untimed h c i st :
  truthy (timeout i) = false →
  await_result h c i st = run_command_result h c i st.
Proof.
  unfold truthy, await_result. destruct (timeout i) as [delay|]; [|done].
  by destruct (delay =? 0).
Qed.

Lemma proc_wait_value c st rc :
  st_deadline st = None →
  proc_returncode (st_proc st) = Some rc
  ∨ (proc_returncode (st_proc st) = None ∧ exit_status c = Some rc) →
  ∃ st', proc_wait c st = (Done rc, st').
Proof.
  destruct st as [p log d]. simpl. intros -> H.
  unfold proc_wait, bind, get_proc, set_proc, emit, await, ret. simpl.
  destruct H as [->|[-> ->]]; simpl; eauto.
Qed.

(** The result is made of what the readers return and of the status. *)
Lemma collect_result_transfer h c c' i st st' out err st2 st2' rc st3 st3' res stf :
  gather_read_streams c i st = (Done (out, err), st2) →
  proc_wait c st2 = (Done rc, st3) →
  gather_read_streams c' i st' = (Done (out, err), st2') →
  proc_wait c' st2' = (Done rc, st3') →
  collect_result h c i st = (Done res, stf) →
  collect_result h c' i st' = (Done res, st3').
Proof.
  intros Hg Hw Hg' Hw'. unfold collect_result, bind.
  rewrite Hg, Hw, Hg', Hw'.
  destruct (text i); [|by intros [= <- _]].
  destruct (capture_output i); unfold decode, ret, raise.
  - destruct (bytes_decode h out); [|done].
    destruct (bytes_decode h err); [|done]. by intros [= <- _].
  - by intros [= <- _].
Qed.

(** The pipeline under another order of the readers. *)
Lemma run_command_result_reschedule h c i sched st res stf :
  st_deadline st = None →
  proc_returncode (st_proc st) = None →
  (∀ s, get_stream s (st_proc st) = pipe_of c i s) →
  run_command_result h c i st = (Done res, stf) →
  ∃ stf', run_command_result h (set_schedule sched c) i st = (Done res, stf').
Proof.
  intros Hd0 Hrc0 Hs0 Hrun.
  pose proof Hrun as Hrun'.
  apply run_command_result_Done_anatomy in Hrun'; [|done].
  destruct Hrun' as (st1 & st2 & evs1 & evs & out & err & ko & ke & Hw & Hg & Hwait
                     & _ & _ & _ & Hao & Hae & _ & _ & Hk & Hrc2 & _).
  apply run_command_result_Done in Hrun as (st1' & Hw' & Hcol).
  rewrite Hw in Hw'. injection Hw' as <-.
  pose proof Hw as Hq.
  apply write_stdin_quiet in Hq as (Hrc1 & Hs1 & _).
  assert (Hd1 : st_deadline st1 = None).
  { apply (behaves_write_stdin (λ _, True) (λ _, True) (λ _, False)) in Hw;
      try done.
    destruct Hw as (_ & _ & Hd & _). by apply Hd. }
  set (c' := set_schedule sched c).
  (* the status the wait reports *)
  pose proof Hwait as Hst.
  apply proc_wait_Done in Hst as (_ & _ & _ & Hst).
  (* the readers under the other order *)
  assert (Hstreams : ∀ s, get_stream s (st_proc st1) = pipe_of c' i s).
  { intros s. by rewrite Hs1, Hs0. }
  destruct (gather_from_total c' i 0 (gather_fuel (st_proc st1)) (schedule c')
              (read_stream_start Stdout (st_proc st1))
              (read_stream_start Stderr (st_proc st1)) st1)
    as (o' & e' & st2' & Hg' & _ & _).
  { apply gather_fuel_covers. }
  { by rewrite Hd1. }
  { apply will_proceed_start; [done|].
    destruct Hst as [Hst|[_ Hst]]; [|left; exists (returncode res); exact Hst].
    right. rewrite Hrc2 in Hst.
    destruct (has_kill evs) eqn:Hkill; [|done].
    destruct Hk as [Hk _]. specialize (Hk eq_refl).
    apply orb_prop in Hk as [->| ->].
    - exists Stdout. change (pipe_of c' i Stdout) with (pipe_of c i Stdout).
      rewrite <- Hs0. cbn [get_stream]. by rewrite Hao.
    - exists Stderr. change (pipe_of c' i Stderr) with (pipe_of c i Stderr).
      rewrite <- Hs0. cbn [get_stream]. by rewrite Hae. }
  assert (Hgs : gather_read_streams c' i st1 = (Done (o', e'), st2')) by exact Hg'.
  pose proof Hgs as Hsound. pose proof Hgs as Horigin. pose proof Hgs as Hd2.
  apply gather_read_streams_sound in Hsound; [|congruence].
  destruct Hsound as (evs' & ko' & ke' & Hl2' & Hao' & Hae' & _ & _ & _ & _
                      & Hk' & Hrc2' & _).
  pose proof (Hs1 Stdout) as Ho1. pose proof (Hs1 Stderr) as He1.
  simpl in Ho1, He1. rewrite Ho1, Hao in Hao'. rewrite He1, Hae in Hae'.
  injection Hao' as <- <-. injection Hae' as <- <-.
  apply gather_read_streams_kill_origin in Horigin as (evs'' & Hl2'' & Hko');
    [|congruence].
  assert (evs'' = evs') as ->
    by (rewrite Hl2' in Hl2''; by apply app_inv_head in Hl2'').
  assert (Hkill : has_kill evs' = has_kill evs).
  { destruct (ko || ke) eqn:Eover.
    - rewrite (Hk' eq_refl). symmetry. by apply Hk.
    - destruct (has_kill evs') eqn:E1.
      + destruct (Hko' E1) as (s & _ & Hal). exfalso.
        apply orb_false_elim in Eover as [-> ->].
        destruct s; simpl in Hal; rewrite ?Ho1, ?He1, ?Hao, ?Hae in Hal; done.
      + destruct (has_kill evs) eqn:E2; [|done].
        destruct Hk as [Hk _]. by specialize (Hk eq_refl). }
  apply (behaves_gather_read_streams (λ _, True) (λ _, True) (λ _, False)) in Hd2;
    try done.
  destruct Hd2 as (_ & _ & Hd2 & _). specialize (Hd2 Hd1).
  destruct (proc_wait_value c' st2' (returncode res) Hd2) as (st3' & Hwait').
  { rewrite Hrc2', Hkill.
    change (kill_status c') with (kill_status c).
    change (exit_status c') with (exit_status c).
    rewrite <- Hrc2. exact Hst. }
  exists st3'. unfold run_command_result, bind.
  change (write_stdin h c' i) with (write_stdin h c i). rewrite Hw.
  by rewrite (collect_result_transfer h c c' i st1 st1 out err st2 st2'
                (returncode res) stf st3' res stf Hg Hwait Hgs Hwait' Hcol).
Qed.

(** A result returned under a timeout is the result of the pipeline run
    without a deadline. *)
Lemma run_command_timeout_Done_untimed h c i res :
  cr_result (run_command_timeout h c i) = Done res →
  ∃ log0 p0 st1,
    run_command_spawn h c i = (log0, inr p0)
    ∧ run_command_result h c i
        {| st_proc := p0; st_log := log0; st_deadline := None |}
      = (Done res, st1).
Proof.
  intros Hres.
  apply run_command_timeout_Done in Hres as (log0 & p0 & st1 & Hsp & Hrun & _).
  apply undisturbed_run_command_result in Hrun.
  unfold with_deadline in Hrun. cbn [st_proc st_log] in Hrun. eauto.
Qed.

(** X12. The result does not depend on the order in which the two readers
    are resumed.  When a call returns a result, a call under any other
    order that returns a result returns the same one, status and both
    streams; and without a timeout it does return one. *)
Theorem X12_result_independent_of_schedule h c i sched res :
  cr_result (run_command_timeout h c i) = Done res →
  (∀ res', cr_result (run_command_timeout h (set_schedule sched c) i) = Done res' →
           res' = res)
  ∧ (truthy (timeout i) = false →
     cr_result (run_command_timeout h (set_schedule sched c) i) = Done res).
Proof.
  intros Hres.
  apply run_command_timeout_Done_untimed in Hres as (log0 & p0 & stf & Hsp & Hrun).
  pose proof Hsp as Hsp'.
  apply run_command_spawn_proc in Hsp' as (Hrc0 & Hs0 & _).
  destruct (run_command_result_reschedule h c i sched
              {| st_proc := p0; st_log := log0; st_deadline := None |}
              res stf eq_refl Hrc0 Hs0 Hrun)
    as (stf' & Hrun').
  split.
  - intros res' Hres'.
    apply run_command_timeout_Done_untimed in Hres'
      as (log0' & p0' & stf'' & Hsp' & Hrun'').
    change (run_command_spawn h (set_schedule sched c) i)
      with (run_command_spawn h c i) in Hsp'.
    rewrite Hsp in Hsp'. injection Hsp' as <- <-.
    rewrite Hrun' in Hrun''. by injection Hrun'' as <- _.
  - intros Ht. unfold run_command_timeout.
    change (run_command_spawn h (set_schedule sched c) i)
      with (run_command_spawn h c i).
    by rewrite Hsp, await_result_untimed, Hrun'.
Qed.

(** ** Reaching the exit of the child *)

Lemma run_command_spawn_starts h c i :
  cannot_start c = None → args i ≠ Argv [] →
  ∃ log0 p0, run_command_spawn h c i = (log0, inr p0).
Proof.
  intros Hc Ha. unfold run_command_spawn, create_subprocess. rewrite Hc.
  destruct (args i) as [cmd|[|program arguments]]; [eauto|done|eauto].
Qed.

(** Under these conditions the pipeline gets as far as the status of the
    child, each reader having returned what it returns on its own. *)
Lemma pipeline_reaches_exit h c i st :
  reaches_exit h c i →
  proc_returncode (st_proc st) = None →
  (∀ s, get_stream s (st_proc st) = pipe_of c i s) →
  time_for (awaits_needed c i) (st_deadline st) →
  ∃ st1 st2 rc st3,
    write_stdin h c i st = (Done (), st1)
    ∧ gather_read_streams c i st1
      = (Done ((read_stream_alone (output_limit i) (pipe_of c i Stdout)).1,
               (read_stream_alone (output_limit i) (pipe_of c i Stderr)).1), st2)
    ∧ proc_wait c st2 = (Done rc, st3).
Proof.
  intros [_ _ Hin Hex _] Hrc Hs Htime.
  destruct (write_stdin_total h c i _ st Hin Htime) as (st1 & Hw & Htime1).
  pose proof Hw as Hq.
  apply write_stdin_quiet in Hq as (Hrc1 & Hs1 & _).
  assert (Hs1' : ∀ s, get_stream s (st_proc st1) = pipe_of c i s).
  { intros s. by rewrite Hs1. }
  destruct (gather_from_total c i 1 (gather_fuel (st_proc st1)) (schedule c)
              (read_stream_start Stdout (st_proc st1))
              (read_stream_start Stderr (st_proc st1)) st1)
    as (o & e & st2 & Hg & Htime2 & Hw2).
  { apply gather_fuel_covers. }
  { rewrite (turns_left_start c i) by done. exact Htime1. }
  { by apply will_proceed_start. }
  assert (Hgs : gather_read_streams c i st1 = (Done (o, e), st2)) by exact Hg.
  pose proof Hgs as Hsound.
  apply gather_read_streams_sound in Hsound; [|congruence].
  destruct Hsound as (evs & ko & ke & _ & Hao & Hae & _).
  pose proof (Hs1' Stdout) as Ho. pose proof (Hs1' Stderr) as He.
  simpl in Ho, He. rewrite Ho in Hao. rewrite He in Hae.
  destruct (proc_wait_total c st2 Hw2 Htime2) as (rc & st3 & Hwait).
  exists st1, st2, rc, st3. by rewrite Hao, Hae.
Qed.

(** X13. In text mode what was captured has to be text.  When the child is
    started, takes its input and exits before any deadline, and the bytes
    read from one of the captured streams do not decode, the call raises
    [UnicodeDecodeError] and returns no result, although the child has
    run to its end and has been waited for. *)
Theorem X13_undecodable_output_raises h c i s :
  reaches_exit h c i →
  text i = true →
  capture_output i = true →
  bytes_decode h (read_stream_alone (output_limit i) (Some (data_of c s))).1 = None →
  let r := run_command_timeout h c i in
  cr_result r = Raised UnicodeDecodeError
  ∧ ∃ p rc, cr_proc r = Some p
            ∧ proc_returncode p = Some rc
            ∧ In (Wait rc) (cr_log r).
Proof.
  intros Hre Ht Hc Hdec r. unfold r.
  destruct (run_command_spawn_starts h c i (re_starts _ _ _ Hre) (re_program _ _ _ Hre))
    as (log0 & p0 & Hsp).
  pose proof Hsp as Hsp'.
  apply run_command_spawn_proc in Hsp' as (Hrc0 & Hs0 & _).
  destruct (pipeline_reaches_exit h c i
              {| st_proc := p0; st_log := log0; st_deadline := armed_deadline c i |}
              Hre Hrc0 Hs0 (re_in_time _ _ _ Hre))
    as (st1 & st2 & rc & st3 & Hw & Hg & Hwait).
  assert (Hrun : run_command_result h c i
                   {| st_proc := p0; st_log := log0;
                      st_deadline := armed_deadline c i |}
                 = (Raised UnicodeDecodeError, st3)).
  { unfold run_command_result, bind. rewrite Hw.
    unfold collect_result, bind. rewrite Hg, Hwait, Ht, Hc.
    unfold decode, raise, ret.
    assert (Hp : ∀ s', pipe_of c i s' = Some (data_of c s'))
      by (intros; unfold pipe_of; by rewrite Hc).
    rewrite !Hp. destruct s.
    - by rewrite Hdec.
    - rewrite Hdec. clear Hdec. by destruct (bytes_decode h _). }
  destruct (run_command_timeout_started h c i log0 p0 Hsp)
    as (r1 & st1' & Hrun' & _ & Hcases).
  rewrite Hrun in Hrun'. injection Hrun' as <- <-.
  destruct Hcases as [([=] & _)|(_ & _ & -> & -> & ->)].
  split; [done|].
  apply proc_wait_Done in Hwait as (Hrc3 & Hl3 & _).
  exists (st_proc st3), rc. split; [done|]. split; [done|].
  rewrite Hl3. apply in_app_iff. right. by left.
Qed.

(** ** A call that never returns *)





(** ** The order of the calls *)

Lemma write_stdin_Done_log h c i st st' :
  is_Some (proc_stdin (st_proc st)) →
  write_stdin h c i st = (Done (), st') →
  st_log st'
  = st_log st ++ stdin_calls (resolve_input h i) true ++ [StdinWaitClosed].
Proof.
  intros [v Hin]. destruct st as [p log d]. simpl in *.
  unfold write_stdin, stdin_write, stdin_drain, stdin_close, stdin_wait_closed,
    update_stdin, bind, get_proc, set_proc, emit, await, ret.
  simpl. rewrite Hin. simpl.
  destruct (resolve_input h i) as [data|]; simpl.
  - destruct (drains_stdin c); simpl.
    + destruct d as [[|[|k]]|]; simpl; intros [= <-]; simpl;
        by rewrite <- !app_assoc.
    + destruct d as [[|k]|]; simpl; intros [=].
  - destruct d as [[|k]|]; simpl; intros [= <-]; simpl;
      by rewrite <- !app_assoc.
Qed.

(** An event found after a prefix in which there is none like it. *)
Lemma split_after_prefix (P : ProcEvent → Prop) pre rest a e b :
  pre ++ rest = a ++ e :: b →
  Forall (λ x, ¬ P x) pre →
  P e →
  ∃ a', a = pre ++ a'.
Proof.
  revert a. induction pre as [|x pre IH]; intros a Heq Hpre He; [by exists a|].
  apply Forall_cons in Hpre as [Hx Hpre].
  destruct a as [|y a]; simpl in Heq.
  - injection Heq as -> _. done.
  - injection Heq as -> Heq. destruct (IH a Heq Hpre He) as [a' ->]. by exists a'.
Qed.

Lemma reader_events_gather c i st r st' :
  gather_read_streams c i st = (r, st') →
  ∃ evs, st_log st' = st_log st ++ evs ∧ Forall reader_event evs.
Proof.
  intros H.
  apply (behaves_gather_read_streams (λ _, True) reader_event (λ _, True)) in H;
    try done; [|by left|by right].
  by destruct H as (_ & ? & _).
Qed.

(** X15. The output is read only once the input has been dealt with: in
    every run, whatever its end, a read comes after the standard input of
    the child was closed.  A run that returns a result has made these
    calls and no other, in this order: the spawn; the write and the flush
    of the payload, if there is one; the closing of the standard input
    and the wait for it; the reads and kills of the two readers; and last
    the wait for the child. *)
Theorem X15_order_of_the_calls h c i :
  let r := run_command_timeout h c i in
  (∀ a e b, cr_log r = a ++ e :: b → is_Read e = true →
            In StdinClose a ∧ In StdinWaitClosed a)
  ∧ (∀ res, cr_result r = Done res →
       ∃ spawn evs,
         cr_log r
         = spawn :: stdin_calls (resolve_input h i) true
           ++ [StdinWaitClosed] ++ evs ++ [Wait (returncode res)]
         ∧ spawn_options_of spawn = Some (spawn_options h i)
         ∧ Forall reader_event evs).
Proof.
  intros r. unfold r. split.
  - intros a e b Hlog He.
    destruct (run_command_spawn h c i) as [log0 [e0|p0]] eqn:Hsp.
    { rewrite (run_command_timeout_not_started h c i log0 e0 Hsp) in Hlog.
      cbn in Hlog. exfalso.
      pose proof (run_command_spawn_log h c i e) as Hs. rewrite Hsp in Hs.
      simpl in Hs. rewrite Hlog in Hs.
      assert (Hin : In e (a ++ e :: b)) by (apply in_app_iff; right; by left).
      specialize (Hs Hin). by destruct e. }
    pose proof (run_command_spawn_stdin h c i log0 p0 Hsp) as Hin0.
    pose proof Hsp as Hsp'.
    apply run_command_spawn_proc in Hsp' as (_ & _ & Hq0).
    destruct (run_command_timeout_started h c i log0 p0 Hsp)
      as (r1 & st1 & Hrun & _ & Hcases).
    assert (Hterm : Forall (λ x, ¬ is_Read x = true) (termination_events c (st_proc st1))).
    { unfold termination_events.
      destruct (terminate_raises c); [by repeat constructor|].
      destruct (proc_returncode _), (term_status c); by repeat constructor. }
    assert (Hlog' : ∃ tail, cr_log (run_command_timeout h c i) = st_log st1 ++ tail
                            ∧ Forall (λ x, ¬ is_Read x = true) tail).
    { destruct Hcases as [(_ & _ & _ & -> & _)|(_ & _ & _ & -> & _)]; [eauto|].
      exists []. by rewrite app_nil_r. }
    destruct Hlog' as (tail & Hl & Htail). rewrite Hl in Hlog. clear Hl Hcases.
    revert Hrun. unfold run_command_result, bind.
    destruct (write_stdin h c i _) as [rw stw] eqn:Ew.
    pose proof Ew as Hq.
    apply write_stdin_quiet in Hq as (_ & _ & evs1 & Hl1 & Hq1).
    cbn [st_log] in Hl1.
    assert (Hnr : ∀ l, Forall quiet_event l → Forall (λ x, ¬ is_Read x = true) l).
    { intros l Hl. eapply Forall_impl; [exact Hl|]. intros x [Hx _]. by rewrite Hx. }
    assert (Hstop : stw = st1 → In StdinClose a ∧ In StdinWaitClosed a).
    { intros <-. exfalso. rewrite Hl1 in Hlog.
      assert (Hall : Forall (λ x, ¬ is_Read x = true) ((log0 ++ evs1) ++ tail)).
      { rewrite !Forall_app. auto. }
      rewrite Hlog in Hall. apply Forall_app in Hall as [_ Hall].
      apply Forall_cons in Hall as [Hall _]. done. }
    destruct rw as [[]|ew|]; [|intros [= _ Hst]; by apply Hstop..].
    intros Hcol.
    apply write_stdin_Done_log in Ew; [|eexists; exact Hin0].
    cbn [st_log] in Ew.
    apply collect_result_log in Hcol as (rg & st2 & evs3 & Hg & Hl3 & Hq3).
    apply reader_events_gather in Hg as (evs2 & Hl2 & _).
    rewrite Hl3, Hl2, <- !app_assoc in Hlog.
    destruct (split_after_prefix (λ x, is_Read x = true) (st_log stw) _ a e b Hlog)
      as [a' ->]; [|done|].
    { rewrite Hl1. apply Forall_app. auto. }
    rewrite Ew. split.
    + rewrite !in_app_iff. left. right. left.
      destruct (resolve_input h i); simpl; auto.
    + rewrite !in_app_iff. left. right. right. by left.
  - intros res Hres.
    apply run_command_timeout_Done in Hres as (log0 & p0 & st' & Hsp & Hrun & -> & _).
    pose proof (run_command_spawn_stdin h c i log0 p0 Hsp) as Hin0.
    pose proof (run_command_spawn_log h c i) as Hopt. rewrite Hsp in Hopt.
    pose proof Hsp as Hsp'.
    apply run_command_spawn_proc in Hsp' as (Hrc0 & _ & _).
    apply run_command_result_Done_anatomy in Hrun; [|done].
    destruct Hrun as (st1 & st2 & evs1 & evs & out & err & ko & ke & Hw & Hg & Hwait
                      & _ & _ & Hl2 & _).
    apply write_stdin_Done_log in Hw; [|eexists; exact Hin0].
    cbn [st_log] in Hw.
    apply reader_events_gather in Hg as (evs' & Hl2' & Hevs).
    assert (evs' = evs) as -> by (rewrite Hl2 in Hl2'; by apply app_inv_head in Hl2').
    apply proc_wait_Done in Hwait as (_ & Hl3 & _).
    assert (Hone : ∃ spawn, log0 = [spawn]).
    { revert Hsp. unfold run_command_spawn, create_subprocess.
      destruct (args i) as [cmd|[|program arguments]]; [|done|];
        intros [= <- _]; eauto. }
    destruct Hone as [spawn ->].
    exists spawn, evs. split; [|split; [|done]].
    + rewrite Hl3, Hl2, Hw. simpl. by rewrite <- !app_assoc.
    + apply Hopt. by left.
Qed.

(** ** The properties above on the examples *)


Lemma X5_witness :
  run_command_timeout example_host example_child example_call
  = run_command_timeout example_host example_child
      (set_input (Some (InBytes (str_encode example_host "abc"))) example_call).
Proof.
  apply (X5_text_input_is_its_encoding example_host example_child example_call "abc").
  reflexivity.
Defined.

Lemma X6_witness :
  run_command_timeout example_host example_child (set_timeout None uncaptured_call)
  = run_command_timeout example_host example_child uncaptured_call.
Proof.
  apply (X6_unexpired_timeout_changes_nothing example_host example_child
           uncaptured_call
           {| success := false; returncode := 3;
              stdout := Text ""; stderr := Text "" |}).
  reflexivity.
Defined.

Lemma X7_witness :
  truthy (timeout (set_timeout (Some 1) example_call)) = true
  ∧ cr_result (run_command_timeout example_host sleeping_child
                 (set_timeout (Some 1) example_call)) ≠ Blocked.
Proof.
  split; [reflexivity|].
  apply (X7_timeout_ends_the_call example_host sleeping_child
           (set_timeout (Some 1) example_call)).
  reflexivity.
Defined.

Lemma X8_witness :
  cr_result (run_command_timeout example_host flood_child (limited_call 10))
  = Raised TimeoutError
  ∨ ∃ s L, output_limit (limited_call 10) = Some L
           ∧ capture_output (limited_call 10) = true
           ∧ L < Z.of_nat
                   (length (concat (reads_of s
                      (cr_log (run_command_timeout example_host flood_child
                                 (limited_call 10)))))).
Proof.
  apply (X8_killed_only_over_limit_or_on_timeout example_host flood_child
           (limited_call 10)).
  apply has_kill_In. reflexivity.
Defined.

Lemma X9_witness :
  (∀ s, carries example_host example_call (payload_of s example_result)
          (concat (data_of example_child s))
        ∧ concat (reads_of s (cr_log (run_command_timeout example_host
                                        example_child example_call)))
          = concat (data_of example_child s))
  ∧ ¬ In Kill (cr_log (run_command_timeout example_host example_child example_call))
  ∧ exit_status example_child = Some (returncode example_result).
Proof.
  apply (X9_no_limit_whole_output example_host example_child example_call
           example_result); reflexivity.
Defined.

Lemma X10_witness :
  (∃ p, cr_proc (run_command_timeout example_host example_child example_call)
        = Some p
        ∧ proc_stdin p
          = Some {| written := default [] (resolve_input example_host example_call);
                    closed := true |})
  ∧ (is_Some (resolve_input example_host example_call) →
     drains_stdin example_child = true).
Proof.
  apply (X10_returned_call_delivered_its_input example_host example_child
           example_call example_result).
  reflexivity.
Defined.

Lemma X11_witness :
  ∃ out err, stdout example_result = Text out ∧ stderr example_result = Text err.
Proof.
  apply (X11_result_streams_of_one_kind example_host example_child example_call
           example_result).
  reflexivity.
Defined.

Lemma X12_witness :
  (∀ res', cr_result (run_command_timeout example_host
                        (set_schedule [Stdout] example_child) example_call)
           = Done res' →
           res' = example_result)
  ∧ (truthy (timeout example_call) = false →
     cr_result (run_command_timeout example_host
                  (set_schedule [Stdout] example_child) example_call)
     = Done example_result).
Proof.
  apply (X12_result_independent_of_schedule example_host example_child
           example_call [Stdout] example_result).
  reflexivity.
Defined.

Lemma binary_child_reaches_exit : reaches_exit example_host binary_child example_call.
Proof.
  constructor; try done.
  - by right.
  - left. by eexists.
Qed.

Lemma X13_witness :
  cr_result (run_command_timeout example_host binary_child example_call)
  = Raised UnicodeDecodeError
  ∧ ∃ p rc, cr_proc (run_command_timeout example_host binary_child example_call)
            = Some p
            ∧ proc_returncode p = Some rc
            ∧ In (Wait rc)
                (cr_log (run_command_timeout example_host binary_child example_call)).
Proof.
  apply (X13_undecodable_output_raises example_host binary_child example_call
           Stdout binary_child_reaches_exit); reflexivity.
Defined.

